(** * spine-core (TypeScript): slot state, vertex attachments, meshes and
    setup-pose lookups, embedded in Rocq.

  The embedding follows the TypeScript sources function by function.
  - A JS [number] that carries a coordinate, a colour channel or a time is
    an IEEE-754 binary64 value: Rocq's primitive [float].
  - A JS [number] that is used as an index, a count or an id is an integer
    [Z]; the 32-bit operators ([>>], [<<], [&]) wrap through [ToInt32].
  - Objects that are compared or shared by reference (attachments, arrays
    held by attachments) live in a store indexed by locations.
  - A [throw] is an explicit [Throw] completion; a loop that the source
    does not bound runs on fuel. *)

From Stdlib Require Import ZArith Lia Bool Floats.
From stdpp Require Import gmap strings list.

Local Open Scope Z_scope.

(** ** JavaScript values and control *)

Module JS.

(** ToInt32 of an integer-valued number: wrap into [-2^31, 2^31). *)
Definition ToInt32 (n : Z) : Z :=
  let m := n mod 4294967296 in
  if 2147483648 <=? m then m - 4294967296 else m.

(** [n >> k], [n << k] and [n & m] on integer-valued numbers. *)
Definition sar (n k : Z) : Z := Z.shiftr (ToInt32 n) k.
Definition shl (n k : Z) : Z := ToInt32 (Z.shiftl (ToInt32 n) k).
Definition band (n m : Z) : Z := Z.land (ToInt32 n) (ToInt32 m).

(** How a call ends: normally, by a [throw], or (in the model only) by
    running out of fuel in a loop. *)
Inductive completion (A : Type) : Type :=
| Normal (v : A)
| Throw (msg : string)
| NoFuel.
Arguments Normal {A} v.
Arguments Throw {A} msg.
Arguments NoFuel {A}.

Definition bind {A B} (m : completion A) (k : A -> completion B) : completion B :=
  match m with
  | Normal v => k v
  | Throw msg => Throw msg
  | NoFuel => NoFuel
  end.

(** [for (...; cond; ...) body] over the loop variables [s]. *)
Fixpoint while {S : Type} (fuel : nat) (cond : S -> bool)
    (body : S -> completion S) (s : S) : completion S :=
  match fuel with
  | O => if cond s then NoFuel else Normal s
  | Datatypes.S fuel' =>
      if cond s then bind (body s) (while fuel' cond body) else Normal s
  end.

(** A dense array of numbers that is only read: [arr[i]] is [undefined]
    out of range, and [undefined] in arithmetic is NaN. *)
Definition get (arr : list float) (i : Z) : float :=
  if i <? 0 then nan else default nan (arr !! Z.to_nat i).

(** An index that went through arithmetic on [undefined]: [None] is NaN. *)
Definition index := option Z.

Definition iadd (x y : index) : index :=
  match x, y with Some x, Some y => Some (x + y) | _, _ => None end.
Definition imul (x : index) (k : Z) : index :=
  match x with Some x => Some (x * k) | None => None end.
(** [x << k]: ToInt32 sends NaN to 0. *)
Definition ishl (x : index) (k : Z) : index :=
  match x with Some x => Some (shl x k) | None => Some 0 end.
(** [x < y] is false as soon as one side is NaN. *)
Definition iltb (x y : index) : bool :=
  match x, y with Some x, Some y => x <? y | _, _ => false end.

(** [arr[i]] for an array of integers, as a number. *)
Definition iget (arr : list Z) (i : index) : index :=
  match i with
  | Some i => if i <? 0 then None else arr !! Z.to_nat i
  | None => None
  end.
(** [arr[i]] for an array of numbers read at a computed index. *)
Definition fget (arr : list float) (i : index) : float :=
  match i with Some i => get arr i | None => nan end.

(** SameValueZero, the equality of [Array.prototype.includes] and of [Map]
    keys: NaN equals NaN, and [+0] equals [-0]. *)
Definition sameValueZero (x y : float) : Prop :=
  x = y \/ PrimFloat.eqb x y = true.

End JS.

#[global] Instance completion_ret : MRet JS.completion := @JS.Normal.
#[global] Instance completion_bind : MBind JS.completion :=
fun A B k m => JS.bind m k.

(** A reference to an object of the store. *)
Definition loc := positive.

(** ** Utils.Color *)

Module Color.
(** Modelled from the spec: Utils.ts is not among the sources. A tint
    colour is its four channels. *)
Record t := mk { r : float; g : float; b : float; a : float }.
(** Modelled from the spec: [this.setFromColor(c)] copies the four channels
    of [c] into [this]. *)
Definition setFromColor (this c : t) : t := mk (r c) (g c) (b c) (a c).
End Color.

(** ** Bone, Skeleton, SlotData: the parts read by Slot and by skinning *)

Module Bone.
(** Modelled from the spec: Bone.ts is not among the sources. The derived
    affine world transform of a bone: the linear part [a b c d] and the
    world translation. *)
Record t := mk {
  a : float; b : float; c : float; d : float;
  worldX : float; worldY : float
}.
End Bone.

Module Skeleton.
(** Modelled from the spec: Skeleton.ts is not among the sources. What Slot
    and the skinning read of a skeleton: its bones, its clock, and
    [getAttachment(slotIndex, attachmentName)], the attachment object found
    in the active skin under that slot index and name, or null. *)
Record t := mk {
  bones : list Bone.t;
  time : float;
  getAttachment : Z -> string -> option loc
}.
End Skeleton.

Module SlotData.
(** Modelled from the spec: SlotData.ts is not among the sources. The slot
    blueprint: setup draw-order index, name, setup tint colours (the dark one
    optional) and the optional setup attachment name. *)
Record t := mk {
  index : Z;
  name : string;
  color : Color.t;
  darkColor : option Color.t;
  attachmentName : option string
}.
End SlotData.

(** ** Slot *)

Module Slot.

(** [skeleton] stands for [this.bone.skeleton]: the object graph is cyclic
    (a skeleton lists its bones, a bone points back at its skeleton), and
    the slot reads the skeleton only along this path. *)
Record t := mk {
  data : SlotData.t;
  bone : Bone.t;
  skeleton : Skeleton.t;
  color : Color.t;
  darkColor : option Color.t;
  attachment : option loc;
  attachmentTime : float;
  attachmentState : Z;
  deform : list float
}.

Definition getSkeleton (this : t) : Skeleton.t := skeleton this.

Definition getAttachment (this : t) : option loc := attachment this.

(** [if (this.attachment == attachment) return]: two object references (or
    null) are [==] exactly when they are the same object. *)
Definition setAttachment (this : t) (attachment : option loc) : t :=
  if decide (Slot.attachment this = attachment) then this
  else
    mk (data this) (bone this) (skeleton this) (color this) (darkColor this)
       attachment
       (Skeleton.time (skeleton this))
       (attachmentState this)
       [].

Definition setAttachmentTime (this : t) (time : float) : t :=
  mk (data this) (bone this) (skeleton this) (color this) (darkColor this)
     (attachment this)
     (Skeleton.time (skeleton this) - time)%float
     (attachmentState this)
     (deform this).

Definition getAttachmentTime (this : t) : float :=
  (Skeleton.time (skeleton this) - attachmentTime this)%float.

(** The assignments to [this.color] and [this.darkColor] that open
    [setToSetupPose]. [this.data.darkColor!] is null only if the slot was
    given a dark colour that its data does not have; [setFromColor] then
    reads a channel of null. *)
Definition resetColors (this : t) : JS.completion t :=
  let color := Color.setFromColor (color this) (SlotData.color (data this)) in
  match darkColor this with
  | Some dark =>
      match SlotData.darkColor (data this) with
      | Some c =>
          JS.Normal (mk (data this) (bone this) (skeleton this) color
                        (Some (Color.setFromColor dark c))
                        (attachment this) (attachmentTime this)
                        (attachmentState this) (deform this))
      | None => JS.Throw "TypeError"
      end
  | None =>
      JS.Normal (mk (data this) (bone this) (skeleton this) color None
                    (attachment this) (attachmentTime this)
                    (attachmentState this) (deform this))
  end.

Definition clearAttachment (this : t) : t :=
  mk (data this) (bone this) (skeleton this) (color this) (darkColor this)
     None (attachmentTime this) (attachmentState this) (deform this).

Definition setToSetupPose (this : t) : JS.completion t :=
  this ← resetColors this;
  match SlotData.attachmentName (data this) with
  | None => JS.Normal (clearAttachment this)
  | Some attachmentName =>
      let this := clearAttachment this in
      JS.Normal
        (setAttachment this
           (Skeleton.getAttachment (skeleton this)
              (SlotData.index (data this)) attachmentName))
  end.

(** [new Slot(data, bone)]; a null argument is [None]. *)
Definition new (data : option SlotData.t) (bone : option (Bone.t * Skeleton.t))
    : JS.completion t :=
  match data with
  | None => JS.Throw "data cannot be null."
  | Some data =>
      match bone with
      | None => JS.Throw "bone cannot be null."
      | Some (bone, skeleton) =>
          let zero := Color.mk 0 0 0 0 in
          setToSetupPose
            (mk data bone skeleton zero
                (match SlotData.darkColor data with
                 | None => None
                 | Some _ => Some zero
                 end)
                None 0%float 0 [])
      end
  end.

End Slot.

(** ** VertexAttachment.computeWorldVertices *)

Module Skinning.

(** [worldVertices], the array that is written: the numbers it holds by
    index. Assigning [worldVertices[w]] defines or replaces index [w]. *)
Abbreviation buffer := (gmap Z float).

Section Loops.

Variable fuel : nat.
Variable vertices : list float.
Variable stride : Z.
Variable count : Z.

(** The unweighted loop
    [for (let v = start, w = offset; w < count; v += 2, w += stride)]
    over [(v, w, worldVertices)]. *)
Definition unweighted_step (bone : Bone.t) (s : Z * Z * buffer)
    : JS.completion (Z * Z * buffer) :=
  let '(v, w, worldVertices) := s in
  let vx := JS.get vertices v in
  let vy := JS.get vertices (v + 1) in
  let worldVertices :=
    <[w := (vx * Bone.a bone + vy * Bone.b bone + Bone.worldX bone)%float]>
      worldVertices in
  let worldVertices :=
    <[w + 1 := (vx * Bone.c bone + vy * Bone.d bone + Bone.worldY bone)%float]>
      worldVertices in
  JS.Normal (v + 2, w + stride, worldVertices).

Definition unweighted_loop (bone : Bone.t) (start offset : Z)
    (worldVertices : buffer) : JS.completion buffer :=
  s ← JS.while fuel (fun s : Z * Z * buffer => s.1.2 <? count)
        (unweighted_step bone) (start, offset, worldVertices);
  JS.Normal s.2.

Variable bones : list Z.
Variable skeletonBones : list Bone.t.

(** [skeletonBones[bones[v]]]; reading [.a] of [undefined] throws. *)
Definition boneAt (v : JS.index) : JS.completion Bone.t :=
  match JS.iget bones v with
  | Some i =>
      if i <? 0 then JS.Throw "TypeError"
      else match skeletonBones !! Z.to_nat i with
           | Some bone => JS.Normal bone
           | None => JS.Throw "TypeError"
           end
  | None => JS.Throw "TypeError"
  end.

(** The skip loop [for (let i = 0; i < start; i += 2)] over [(i, v, skip)]. *)
Definition skip_step (s : Z * JS.index * JS.index)
    : JS.completion (Z * JS.index * JS.index) :=
  let '(i, v, skip) := s in
  let n := JS.iget bones v in
  JS.Normal (i + 2, JS.iadd v (JS.iadd n (Some 1)), JS.iadd skip n).

Definition skip_loop (start : Z) : JS.completion (JS.index * JS.index) :=
  s ← JS.while fuel (fun s : Z * JS.index * JS.index => s.1.1 <? start)
        skip_step (0, Some 0, Some 0);
  JS.Normal (s.1.2, s.2).

(** The inner loop [for (; v < n; v++, b += 3)] over [(v, b, wx, wy)]. *)
Definition weighted_inner_step (s : JS.index * JS.index * float * float)
    : JS.completion (JS.index * JS.index * float * float) :=
  let '(v, b, wx, wy) := s in
  bone ← boneAt v;
  let vx := JS.fget vertices b in
  let vy := JS.fget vertices (JS.iadd b (Some 1)) in
  let weight := JS.fget vertices (JS.iadd b (Some 2)) in
  let wx :=
    (wx + (vx * Bone.a bone + vy * Bone.b bone + Bone.worldX bone) * weight)%float in
  let wy :=
    (wy + (vx * Bone.c bone + vy * Bone.d bone + Bone.worldY bone) * weight)%float in
  JS.Normal (JS.iadd v (Some 1), JS.iadd b (Some 3), wx, wy).

(** The loop [for (let w = offset, b = skip * 3; w < count; w += stride)]
    over [(w, v, b, worldVertices)]. *)
Definition weighted_step (s : Z * JS.index * JS.index * buffer)
    : JS.completion (Z * JS.index * JS.index * buffer) :=
  let '(w, v, b, worldVertices) := s in
  let n := JS.iget bones v in
  let v := JS.iadd v (Some 1) in
  let n := JS.iadd n v in
  r ← JS.while fuel
        (fun r : JS.index * JS.index * float * float => JS.iltb r.1.1.1 n)
        weighted_inner_step (v, b, 0%float, 0%float);
  let '(v, b, wx, wy) := r in
  let worldVertices := <[w := wx]> worldVertices in
  let worldVertices := <[w + 1 := wy]> worldVertices in
  JS.Normal (w + stride, v, b, worldVertices).

Variable deform : list float.

(** The inner loop [for (; v < n; v++, b += 3, f += 2)] over
    [(v, b, f, wx, wy)]. *)
Definition deformed_inner_step
    (s : JS.index * JS.index * JS.index * float * float)
    : JS.completion (JS.index * JS.index * JS.index * float * float) :=
  let '(v, b, f, wx, wy) := s in
  bone ← boneAt v;
  let vx := PrimFloat.add (JS.fget vertices b) (JS.fget deform f) in
  let vy :=
    PrimFloat.add (JS.fget vertices (JS.iadd b (Some 1)))
                  (JS.fget deform (JS.iadd f (Some 1))) in
  let weight := JS.fget vertices (JS.iadd b (Some 2)) in
  let wx :=
    (wx + (vx * Bone.a bone + vy * Bone.b bone + Bone.worldX bone) * weight)%float in
  let wy :=
    (wy + (vx * Bone.c bone + vy * Bone.d bone + Bone.worldY bone) * weight)%float in
  JS.Normal (JS.iadd v (Some 1), JS.iadd b (Some 3), JS.iadd f (Some 2), wx, wy).

(** The loop
    [for (let w = offset, b = skip * 3, f = skip << 1; w < count; w += stride)]
    over [(w, v, b, f, worldVertices)]. *)
Definition deformed_step (s : Z * JS.index * JS.index * JS.index * buffer)
    : JS.completion (Z * JS.index * JS.index * JS.index * buffer) :=
  let '(w, v, b, f, worldVertices) := s in
  let n := JS.iget bones v in
  let v := JS.iadd v (Some 1) in
  let n := JS.iadd n v in
  r ← JS.while fuel
        (fun r : JS.index * JS.index * JS.index * float * float =>
           JS.iltb r.1.1.1.1 n)
        deformed_inner_step (v, b, f, 0%float, 0%float);
  let '(v, b, f, wx, wy) := r in
  let worldVertices := <[w := wx]> worldVertices in
  let worldVertices := <[w + 1 := wy]> worldVertices in
  JS.Normal (w + stride, v, b, f, worldVertices).

End Loops.

(** [this.computeWorldVertices(slot, start, count, worldVertices, offset,
    stride)], where [this_bones] and [this_vertices] are the arrays held by
    [this.bones] (null: [None]) and [this.vertices]. The result is
    [worldVertices] after the call. *)
Definition computeWorldVertices (fuel : nat)
    (this_bones : option (list Z)) (this_vertices : list float)
    (slot : Slot.t) (start count : Z) (worldVertices : buffer)
    (offset stride : Z) : JS.completion buffer :=
  let count := offset + JS.sar count 1 * stride in
  let skeleton := Slot.skeleton slot in
  let deformArray := Slot.deform slot in
  let vertices := this_vertices in
  match this_bones with
  | None =>
      let vertices :=
        if (0 <? length deformArray)%nat then deformArray else vertices in
      unweighted_loop fuel vertices stride count (Slot.bone slot)
        start offset worldVertices
  | Some bones =>
      '(v, skip) ← skip_loop fuel bones start;
      let skeletonBones := Skeleton.bones skeleton in
      if (length deformArray =? 0)%nat then
        s ← JS.while fuel
              (fun s : Z * JS.index * JS.index * buffer => s.1.1.1 <? count)
              (weighted_step fuel vertices stride bones skeletonBones)
              (offset, v, JS.imul skip 3, worldVertices);
        JS.Normal s.2
      else
        s ← JS.while fuel
              (fun s : Z * JS.index * JS.index * JS.index * buffer =>
                 s.1.1.1.1 <? count)
              (deformed_step fuel vertices stride bones skeletonBones
                 deformArray)
              (offset, v, JS.imul skip 3, JS.ishl skip 1, worldVertices);
        JS.Normal s.2
  end.

End Skinning.

(** ** Texture regions *)

Module TextureRegion.

(** Modelled from the spec: Texture.ts and TextureAtlas.ts are not among the
    sources. [atlas] is what a TextureAtlasRegion adds to a TextureRegion:
    the rotation of the region in its page and the size of the page image
    ([region.texture.getImage().width] and [.height]). *)
Record atlasRegion := mkAtlas {
  degrees : Z;
  textureWidth : float;
  textureHeight : float
}.

(** Modelled from the spec: the fields of a TextureRegion that
    [MeshAttachment.updateUVs] reads. [atlas] is [Some] exactly when
    [region instanceof TextureAtlasRegion]. *)
Record t := mk {
  u : float; v : float; u2 : float; v2 : float;
  width : float; height : float;
  offsetX : float; offsetY : float;
  originalWidth : float; originalHeight : float;
  atlas : option atlasRegion
}.

End TextureRegion.

(** ** Attachment objects *)

Module Attachment.

(** The fields of VertexAttachment (and [name], of Attachment). [bones],
    [vertices] and [deformAttachment] are references. *)
Record vertex := mkVertex {
  name : string;
  id : Z;
  bones : option loc;
  vertices : loc;
  worldVerticesLength : Z;
  deformAttachment : option loc
}.

(** The fields that MeshAttachment adds. *)
Record mesh := mkMesh {
  region : option TextureRegion.t;
  path : string;
  regionUVs : loc;
  uvs : loc;
  triangles : loc;
  color : Color.t;
  width : float;
  height : float;
  hullLength : Z;
  edges : loc;
  parentMesh : option loc;
  tempColor : Color.t
}.

Inductive kind :=
| Mesh (m : mesh)
| BoundingBox (color : Color.t)
| Clipping (endSlot : option SlotData.t) (color : Color.t).

Record t := mk { base : vertex; ext : kind }.

Definition with_bones (x : option loc) (a : t) : t :=
  let b := base a in
  mk (mkVertex (name b) (id b) x (vertices b) (worldVerticesLength b)
        (deformAttachment b)) (ext a).
Definition with_vertices (x : loc) (a : t) : t :=
  let b := base a in
  mk (mkVertex (name b) (id b) (bones b) x (worldVerticesLength b)
        (deformAttachment b)) (ext a).
Definition with_worldVerticesLength (x : Z) (a : t) : t :=
  let b := base a in
  mk (mkVertex (name b) (id b) (bones b) (vertices b) x (deformAttachment b))
     (ext a).
Definition with_deformAttachment (x : option loc) (a : t) : t :=
  let b := base a in
  mk (mkVertex (name b) (id b) (bones b) (vertices b) (worldVerticesLength b) x)
     (ext a).

(** An assignment to a field of the mesh part. *)
Definition with_mesh (f : mesh -> mesh) (a : t) : t :=
  match ext a with
  | Mesh m => mk (base a) (Mesh (f m))
  | _ => a
  end.

Definition set_region (x : option TextureRegion.t) (m : mesh) : mesh :=
  mkMesh x (path m) (regionUVs m) (uvs m) (triangles m) (color m) (width m)
    (height m) (hullLength m) (edges m) (parentMesh m) (tempColor m).
Definition set_regionUVs (x : loc) (m : mesh) : mesh :=
  mkMesh (region m) (path m) x (uvs m) (triangles m) (color m) (width m)
    (height m) (hullLength m) (edges m) (parentMesh m) (tempColor m).
Definition set_uvs (x : loc) (m : mesh) : mesh :=
  mkMesh (region m) (path m) (regionUVs m) x (triangles m) (color m) (width m)
    (height m) (hullLength m) (edges m) (parentMesh m) (tempColor m).
Definition set_triangles (x : loc) (m : mesh) : mesh :=
  mkMesh (region m) (path m) (regionUVs m) (uvs m) x (color m) (width m)
    (height m) (hullLength m) (edges m) (parentMesh m) (tempColor m).
Definition set_color (x : Color.t) (m : mesh) : mesh :=
  mkMesh (region m) (path m) (regionUVs m) (uvs m) (triangles m) x (width m)
    (height m) (hullLength m) (edges m) (parentMesh m) (tempColor m).
Definition set_width (x : float) (m : mesh) : mesh :=
  mkMesh (region m) (path m) (regionUVs m) (uvs m) (triangles m) (color m) x
    (height m) (hullLength m) (edges m) (parentMesh m) (tempColor m).
Definition set_height (x : float) (m : mesh) : mesh :=
  mkMesh (region m) (path m) (regionUVs m) (uvs m) (triangles m) (color m)
    (width m) x (hullLength m) (edges m) (parentMesh m) (tempColor m).
Definition set_hullLength (x : Z) (m : mesh) : mesh :=
  mkMesh (region m) (path m) (regionUVs m) (uvs m) (triangles m) (color m)
    (width m) (height m) x (edges m) (parentMesh m) (tempColor m).
Definition set_edges (x : loc) (m : mesh) : mesh :=
  mkMesh (region m) (path m) (regionUVs m) (uvs m) (triangles m) (color m)
    (width m) (height m) (hullLength m) x (parentMesh m) (tempColor m).
Definition set_parentMesh (x : option loc) (m : mesh) : mesh :=
  mkMesh (region m) (path m) (regionUVs m) (uvs m) (triangles m) (color m)
    (width m) (height m) (hullLength m) (edges m) x (tempColor m).

End Attachment.

(** ** The store *)

Module Store.

(** The objects that are shared by reference: arrays of numbers
    (NumberArrayLike: [vertices], [regionUVs], [uvs]), arrays of indices
    ([bones], [triangles], [edges]) and attachments, each kind with its own
    references; and the static counter [VertexAttachment.nextID]. *)
Record t := mk {
  floats : gmap loc (list float);
  ints : gmap loc (list Z);
  attachments : gmap loc Attachment.t;
  nextID : Z
}.

Definition empty : t := mk ∅ ∅ ∅ 0.

(** A computation on the store: how it ends, and the store it leaves. *)
Definition M (A : Type) : Type := t -> JS.completion A * t.

Definition ret {A} (x : A) : M A := fun st => (JS.Normal x, st).

Definition bind {A B} (m : M A) (k : A -> M B) : M B :=
  fun st =>
    match m st with
    | (JS.Normal x, st') => k x st'
    | (JS.Throw msg, st') => (JS.Throw msg, st')
    | (JS.NoFuel, st') => (JS.NoFuel, st')
    end.

Definition throw {A} (msg : string) : M A := fun st => (JS.Throw msg, st).

(** A computation that does not touch the store. *)
Definition lift {A} (c : JS.completion A) : M A := fun st => (c, st).

Definition get : M t := fun st => (JS.Normal st, st).
Definition put (st : t) : M unit := fun _ => (JS.Normal tt, st).

(** [new] of an array: a reference that the store does not hold yet. *)
Definition newFloats (l : list float) : M loc :=
  fun st =>
    let p := fresh (dom (floats st)) in
    (JS.Normal p, mk (<[p := l]> (floats st)) (ints st) (attachments st) (nextID st)).

Definition newInts (l : list Z) : M loc :=
  fun st =>
    let p := fresh (dom (ints st)) in
    (JS.Normal p, mk (floats st) (<[p := l]> (ints st)) (attachments st) (nextID st)).

(** The contents of an array. Every reference held by an object of the
    store is to an array of the store; for any other reference the read is
    that of an empty array, and the write is lost. *)
Definition readFloats (st : t) (p : loc) : list float :=
  default [] (floats st !! p).
Definition readInts (st : t) (p : loc) : list Z :=
  default [] (ints st !! p).

Definition writeFloats (st : t) (p : loc) (l : list float) : t :=
  match floats st !! p with
  | Some _ => mk (<[p := l]> (floats st)) (ints st) (attachments st) (nextID st)
  | None => st
  end.
Definition writeInts (st : t) (p : loc) (l : list Z) : t :=
  match ints st !! p with
  | Some _ => mk (floats st) (<[p := l]> (ints st)) (attachments st) (nextID st)
  | None => st
  end.

(** [arr[i]] read from the store. *)
Definition load (st : t) (p : loc) (i : Z) : float :=
  JS.get (readFloats st p) i.

(** [arr[i] = x] on an array of numbers: an index within the length is
    replaced, an index at or past the length extends the array (the holes
    read as [undefined], NaN in arithmetic). *)
Definition setElement (arr : list float) (i : Z) (x : float) : list float :=
  if i <? 0 then arr
  else if i <? Z.of_nat (length arr) then <[Z.to_nat i := x]> arr
  else arr ++ replicate (Z.to_nat i - length arr) nan ++ [x].

Definition store (st : t) (p : loc) (i : Z) (x : float) : t :=
  writeFloats st p (setElement (readFloats st p) i x).

(** The attachment behind a reference. *)
Definition attachment (p : loc) : M Attachment.t :=
  fun st =>
    match attachments st !! p with
    | Some a => (JS.Normal a, st)
    | None => (JS.Throw "TypeError", st)
    end.

(** An assignment to fields of the attachment behind [p]. *)
Definition update (p : loc) (f : Attachment.t -> Attachment.t) : M unit :=
  fun st =>
    match attachments st !! p with
    | Some a =>
        (JS.Normal tt,
         mk (floats st) (ints st) (<[p := f a]> (attachments st)) (nextID st))
    | None => (JS.Throw "TypeError", st)
    end.

End Store.

#[global] Instance store_ret : MRet Store.M := @Store.ret.
#[global] Instance store_bind : MBind Store.M :=
  fun A B k m => Store.bind m k.

(** ** Utils *)

Module Utils.

(** Modelled from the spec: Utils.ts is not among the sources.
    [Utils.newFloatArray(size)] is a new array of [size] zeros. The array is
    taken to hold numbers as they are (an [Array<number>]). *)
Definition newFloatArray (size : nat) : Store.M loc :=
  Store.newFloats (replicate size 0%float).

(** Modelled from the spec: [Utils.arrayCopy(source, 0, dest, 0, n)] assigns
    [dest[i] = source[i]] for [0 <= i < n]; every call in these sources has
    [n = source.length = dest.length]. *)
Definition arrayCopy {A} (source dest : list A) (numElements : nat) : list A :=
  take numElements source ++ drop numElements dest.

Definition arrayCopyFloats (source dest : loc) (numElements : nat) : Store.M unit :=
  fun st =>
    (JS.Normal tt,
     Store.writeFloats st dest
       (arrayCopy (Store.readFloats st source) (Store.readFloats st dest)
          numElements)).

Definition arrayCopyInts (source dest : loc) (numElements : nat) : Store.M unit :=
  fun st =>
    (JS.Normal tt,
     Store.writeInts st dest
       (arrayCopy (Store.readInts st source) (Store.readInts st dest)
          numElements)).

End Utils.

(** ** Attachment and VertexAttachment *)

Module VertexAttachment.

(** [(VertexAttachment.nextID++ & 65535) << 11], for the value of the
    counter before the increment. *)
Definition idOf (nextID : Z) : Z := JS.shl (JS.band nextID 65535) 11.

Definition takeID : Store.M Z :=
  fun st =>
    (JS.Normal (idOf (Store.nextID st)),
     Store.mk (Store.floats st) (Store.ints st) (Store.attachments st)
       (Store.nextID st + 1)).

(** The object under construction: a reference the store does not hold. *)
Definition allocate : Store.M loc :=
  fun st => (JS.Normal (fresh (dom (Store.attachments st))), st).

Definition install (this : loc) (a : Attachment.t) : Store.M unit :=
  fun st =>
    (JS.Normal tt,
     Store.mk (Store.floats st) (Store.ints st)
       (<[this := a]> (Store.attachments st)) (Store.nextID st)).

(** [super(name)] up to Attachment, whose constructor throws on a null
    name, then the field initialisers of VertexAttachment in order. *)
Definition construct (this : loc) (name : option string)
    : Store.M Attachment.vertex :=
  match name with
  | None => Store.throw "name cannot be null."
  | Some name =>
      id ← takeID;
      vertices ← Store.newFloats [];
      mret (Attachment.mkVertex name id None vertices 0 (Some this))
  end.

Definition floatsOf (p : loc) : Store.M (list float) :=
  fun st => (JS.Normal (Store.readFloats st p), st).
Definition intsOf (p : loc) : Store.M (list Z) :=
  fun st => (JS.Normal (Store.readInts st p), st).

(** [new Array<number>(n)] followed by [Utils.arrayCopy(source, 0, copy, 0,
    n)] with [n = source.length], for an array of numbers and for an array
    of indices. *)
Definition cloneFloats (source : loc) : Store.M loc :=
  l ← floatsOf source;
  copy ← Store.newFloats (replicate (length l) nan);
  Utils.arrayCopyFloats source copy (length l);;
  mret copy.

Definition cloneInts (source : loc) : Store.M loc :=
  l ← intsOf source;
  copy ← Store.newInts (replicate (length l) 0);
  Utils.arrayCopyInts source copy (length l);;
  mret copy.

(** [this.copyTo(attachment)]. [this.vertices] is an array, hence truthy. *)
Definition copyTo (this attachment : loc) : Store.M unit :=
  s ← Store.attachment this;
  match Attachment.bones (Attachment.base s) with
  | Some bones =>
      copy ← cloneInts bones;
      Store.update attachment (Attachment.with_bones (Some copy))
  | None => Store.update attachment (Attachment.with_bones None)
  end;;
  s ← Store.attachment this;
  l ← floatsOf (Attachment.vertices (Attachment.base s));
  copy ← Utils.newFloatArray (length l);
  Utils.arrayCopyFloats (Attachment.vertices (Attachment.base s)) copy (length l);;
  Store.update attachment (Attachment.with_vertices copy);;
  s ← Store.attachment this;
  Store.update attachment
    (Attachment.with_worldVerticesLength
       (Attachment.worldVerticesLength (Attachment.base s)));;
  s ← Store.attachment this;
  Store.update attachment
    (Attachment.with_deformAttachment
       (Attachment.deformAttachment (Attachment.base s))).

(** [this.computeWorldVertices(...)] for an attachment of the store. *)
Definition computeWorldVertices (fuel : nat) (this : loc) (slot : Slot.t)
    (start count : Z) (worldVertices : Skinning.buffer) (offset stride : Z)
    : Store.M Skinning.buffer :=
  s ← Store.attachment this;
  st ← Store.get;
  let bones :=
    match Attachment.bones (Attachment.base s) with
    | Some p => Some (Store.readInts st p)
    | None => None
    end in
  let vertices := Store.readFloats st (Attachment.vertices (Attachment.base s)) in
  Store.lift
    (Skinning.computeWorldVertices fuel bones vertices slot start count
       worldVertices offset stride).

End VertexAttachment.

(** ** MeshAttachment *)

Module MeshAttachment.

(** [new MeshAttachment(name, path)]. *)
Definition new (name : option string) (path : string) : Store.M loc :=
  this ← VertexAttachment.allocate;
  base ← VertexAttachment.construct this name;
  regionUVs ← Store.newFloats [];
  uvs ← Store.newFloats [];
  triangles ← Store.newInts [];
  edges ← Store.newInts [];
  VertexAttachment.install this
    (Attachment.mk base
       (Attachment.Mesh
          (Attachment.mkMesh None path regionUVs uvs triangles
             (Color.mk 1 1 1 1) 0%float 0%float 0 edges None
             (Color.mk 0 0 0 0))));;
  mret this.

(** The mesh behind a reference. *)
Definition mesh (p : loc) : Store.M (Attachment.vertex * Attachment.mesh) :=
  a ← Store.attachment p;
  match Attachment.ext a with
  | Attachment.Mesh m => mret (Attachment.base a, m)
  | _ => Store.throw "TypeError"
  end.

(** The loop [for (let i = 0; i < n; i += 2)] of [updateUVs] over
    [(i, store)]: [first] and [second] are the right-hand sides assigned to
    [uvs[i]] and [uvs[i + 1]], given how [regionUVs] reads at that point. *)
Definition uvStep (uvs regionUVs : loc)
    (first second : (Z -> float) -> Z -> float) (s : Z * Store.t)
    : JS.completion (Z * Store.t) :=
  let '(i, st) := s in
  let st := Store.store st uvs i (first (Store.load st regionUVs) i) in
  let st := Store.store st uvs (i + 1) (second (Store.load st regionUVs) i) in
  JS.Normal (i + 2, st).

Definition uvLoop (uvs regionUVs : loc) (n : Z)
    (first second : (Z -> float) -> Z -> float) : Store.M unit :=
  fun st =>
    match JS.while (Z.to_nat n) (fun s : Z * Store.t => s.1 <? n)
            (uvStep uvs regionUVs first second) (0, st) with
    | JS.Normal s => (JS.Normal tt, s.2)
    | JS.Throw msg => (JS.Throw msg, st)
    | JS.NoFuel => (JS.NoFuel, st)
    end.

Section Remap.

Variables u v width height : float.

(** The right-hand sides of the four loops. *)
Definition first90 (regionUVs : Z -> float) (i : Z) : float :=
  (u + regionUVs (i + 1)%Z * width)%float.
Definition second90 (regionUVs : Z -> float) (i : Z) : float :=
  (v + (1 - regionUVs i) * height)%float.

Definition first180 (regionUVs : Z -> float) (i : Z) : float :=
  (u + (1 - regionUVs i) * width)%float.
Definition second180 (regionUVs : Z -> float) (i : Z) : float :=
  (v + (1 - regionUVs (i + 1)%Z) * height)%float.

Definition first270 (regionUVs : Z -> float) (i : Z) : float :=
  (u + (1 - regionUVs (i + 1)%Z) * width)%float.
Definition second270 (regionUVs : Z -> float) (i : Z) : float :=
  (v + regionUVs i * height)%float.

Definition first0 (regionUVs : Z -> float) (i : Z) : float :=
  (u + regionUVs i * width)%float.
Definition second0 (regionUVs : Z -> float) (i : Z) : float :=
  (v + regionUVs (i + 1)%Z * height)%float.

End Remap.

(** [if (this.uvs == null || this.uvs.length != regionUVs.length)
      this.uvs = Utils.newFloatArray(regionUVs.length)], for the mesh part
    [m] of [this]; [this.uvs] is an array, hence not null. The result is
    [this.uvs] after the statement. *)
Definition ensureUVs (this : loc) (m : Attachment.mesh) : Store.M loc :=
  lr ← VertexAttachment.floatsOf (Attachment.regionUVs m);
  lu ← VertexAttachment.floatsOf (Attachment.uvs m);
  if bool_decide (length lu = length lr) then mret (Attachment.uvs m)
  else
    uvs ← Utils.newFloatArray (length lr);
    Store.update this (Attachment.with_mesh (Attachment.set_uvs uvs));;
    mret uvs.

(** [this.updateUVs()]. The branch [else if (!this.region)] of the source
    is past the throw on a null region and is never taken. *)
Definition updateUVs (this : loc) : Store.M unit :=
  '(_, m) ← mesh this;
  match Attachment.region m with
  | None => Store.throw "Region not set."
  | Some region =>
      let regionUVs := Attachment.regionUVs m in
      uvs ← ensureUVs this m;
      lu ← VertexAttachment.floatsOf uvs;
      let n := Z.of_nat (length lu) in
      let u := TextureRegion.u region in
      let v := TextureRegion.v region in
      match TextureRegion.atlas region with
      | Some page =>
          let textureWidth := TextureRegion.textureWidth page in
          let textureHeight := TextureRegion.textureHeight page in
          let originalWidth := TextureRegion.originalWidth region in
          let originalHeight := TextureRegion.originalHeight region in
          let offsetX := TextureRegion.offsetX region in
          let offsetY := TextureRegion.offsetY region in
          let degrees := TextureRegion.degrees page in
          if degrees =? 90 then
            let u := (u - (originalHeight - offsetY - TextureRegion.height region) / textureWidth)%float in
            let v := (v - (originalWidth - offsetX - TextureRegion.width region) / textureHeight)%float in
            let width := (originalHeight / textureWidth)%float in
            let height := (originalWidth / textureHeight)%float in
            uvLoop uvs regionUVs n (first90 u width) (second90 v height)
          else if degrees =? 180 then
            let u := (u - (originalWidth - offsetX - TextureRegion.width region) / textureWidth)%float in
            let v := (v - offsetY / textureHeight)%float in
            let width := (originalWidth / textureWidth)%float in
            let height := (originalHeight / textureHeight)%float in
            uvLoop uvs regionUVs n (first180 u width) (second180 v height)
          else if degrees =? 270 then
            let u := (u - offsetY / textureWidth)%float in
            let v := (v - offsetX / textureHeight)%float in
            let width := (originalHeight / textureWidth)%float in
            let height := (originalWidth / textureHeight)%float in
            uvLoop uvs regionUVs n (first270 u width) (second270 v height)
          else
            let u := (u - offsetX / textureWidth)%float in
            let v := (v - (originalHeight - offsetY - TextureRegion.height region) / textureHeight)%float in
            let width := (originalWidth / textureWidth)%float in
            let height := (originalHeight / textureHeight)%float in
            uvLoop uvs regionUVs n (first0 u width) (second0 v height)
      | None =>
          let width := (TextureRegion.u2 region - u)%float in
          let height := (TextureRegion.v2 region - v)%float in
          uvLoop uvs regionUVs n (first0 u width) (second0 v height)
      end
  end.

Definition getParentMesh (this : loc) : Store.M (option loc) :=
  '(_, m) ← mesh this;
  mret (Attachment.parentMesh m).

(** [this.setParentMesh(parentMesh)]. *)
Definition setParentMesh (this : loc) (parentMesh : option loc) : Store.M unit :=
  Store.update this (Attachment.with_mesh (Attachment.set_parentMesh parentMesh));;
  match parentMesh with
  | Some parent =>
      '(pb, pm) ← mesh parent;
      Store.update this (Attachment.with_bones (Attachment.bones pb));;
      Store.update this (Attachment.with_vertices (Attachment.vertices pb));;
      Store.update this
        (Attachment.with_worldVerticesLength (Attachment.worldVerticesLength pb));;
      Store.update this
        (Attachment.with_mesh (Attachment.set_regionUVs (Attachment.regionUVs pm)));;
      Store.update this
        (Attachment.with_mesh (Attachment.set_triangles (Attachment.triangles pm)));;
      Store.update this
        (Attachment.with_mesh (Attachment.set_hullLength (Attachment.hullLength pm)));;
      Store.update this
        (Attachment.with_worldVerticesLength (Attachment.worldVerticesLength pb))
  | None => mret tt
  end.

(** [this.newLinkedMesh()]. The copy is a new object: the fields of [this]
    read along the way are those read at the start. *)
Definition newLinkedMesh (this : loc) : Store.M loc :=
  '(b, m) ← mesh this;
  copy ← new (Some (Attachment.name b)) (Attachment.path m);
  Store.update copy (Attachment.with_mesh (Attachment.set_region (Attachment.region m)));;
  Store.update copy
    (Attachment.with_mesh
       (fun c => Attachment.set_color
                   (Color.setFromColor (Attachment.color c) (Attachment.color m)) c));;
  Store.update copy (Attachment.with_deformAttachment (Attachment.deformAttachment b));;
  setParentMesh copy
    (match Attachment.parentMesh m with
     | Some parent => Some parent
     | None => Some this
     end);;
  updateUVs copy;;
  mret copy.

(** [this.copy()]. [this.edges] is an array, hence not null. *)
Definition copy (this : loc) : Store.M loc :=
  '(b, m) ← mesh this;
  match Attachment.parentMesh m with
  | Some _ => newLinkedMesh this
  | None =>
      copy ← new (Some (Attachment.name b)) (Attachment.path m);
      Store.update copy (Attachment.with_mesh (Attachment.set_region (Attachment.region m)));;
      Store.update copy
        (Attachment.with_mesh
           (fun c => Attachment.set_color
                       (Color.setFromColor (Attachment.color c) (Attachment.color m)) c));;
      VertexAttachment.copyTo this copy;;
      regionUVs ← VertexAttachment.cloneFloats (Attachment.regionUVs m);
      Store.update copy (Attachment.with_mesh (Attachment.set_regionUVs regionUVs));;
      uvs ← VertexAttachment.cloneFloats (Attachment.uvs m);
      Store.update copy (Attachment.with_mesh (Attachment.set_uvs uvs));;
      triangles ← VertexAttachment.cloneInts (Attachment.triangles m);
      Store.update copy (Attachment.with_mesh (Attachment.set_triangles triangles));;
      Store.update copy
        (Attachment.with_mesh (Attachment.set_hullLength (Attachment.hullLength m)));;
      edges ← VertexAttachment.cloneInts (Attachment.edges m);
      Store.update copy (Attachment.with_mesh (Attachment.set_edges edges));;
      Store.update copy (Attachment.with_mesh (Attachment.set_width (Attachment.width m)));;
      Store.update copy (Attachment.with_mesh (Attachment.set_height (Attachment.height m)));;
      mret copy
  end.

End MeshAttachment.

(** ** BoundingBoxAttachment and ClippingAttachment *)

Module BoundingBoxAttachment.

Definition new (name : option string) : Store.M loc :=
  this ← VertexAttachment.allocate;
  base ← VertexAttachment.construct this name;
  VertexAttachment.install this
    (Attachment.mk base (Attachment.BoundingBox (Color.mk 1 1 1 1)));;
  mret this.

Definition copy (this : loc) : Store.M loc :=
  a ← Store.attachment this;
  match Attachment.ext a with
  | Attachment.BoundingBox color =>
      copy ← new (Some (Attachment.name (Attachment.base a)));
      VertexAttachment.copyTo this copy;;
      Store.update copy
        (fun c =>
           match Attachment.ext c with
           | Attachment.BoundingBox color' =>
               Attachment.mk (Attachment.base c)
                 (Attachment.BoundingBox (Color.setFromColor color' color))
           | _ => c
           end);;
      mret copy
  | _ => Store.throw "TypeError"
  end.

End BoundingBoxAttachment.

Module ClippingAttachment.

Definition new (name : option string) : Store.M loc :=
  this ← VertexAttachment.allocate;
  base ← VertexAttachment.construct this name;
  VertexAttachment.install this
    (Attachment.mk base
       (Attachment.Clipping None
          (Color.mk 0.2275 0.2275 0.8078 1)));;
  mret this.

Definition copy (this : loc) : Store.M loc :=
  a ← Store.attachment this;
  match Attachment.ext a with
  | Attachment.Clipping endSlot color =>
      copy ← new (Some (Attachment.name (Attachment.base a)));
      VertexAttachment.copyTo this copy;;
      Store.update copy
        (fun c =>
           match Attachment.ext c with
           | Attachment.Clipping _ color' =>
               Attachment.mk (Attachment.base c)
                 (Attachment.Clipping endSlot color')
           | _ => c
           end);;
      Store.update copy
        (fun c =>
           match Attachment.ext c with
           | Attachment.Clipping endSlot' color' =>
               Attachment.mk (Attachment.base c)
                 (Attachment.Clipping endSlot' (Color.setFromColor color' color))
           | _ => c
           end);;
      mret copy
  | _ => Store.throw "TypeError"
  end.

End ClippingAttachment.

(** ** Setup-pose data *)

(** What the lookups of SkeletonData read of an element: its [name]. *)
Class Named (A : Type) := nameOf : A -> string.

Module BoneData.
(** Modelled from the spec: BoneData.ts is not among the sources; of a bone
    blueprint the lookups read the name. *)
Record t := mk { name : string }.
End BoneData.

Module Skin.
(** Modelled from the spec: Skin.ts is not among the sources. *)
Record t := mk { name : string }.
End Skin.

Module Animation.
(** Modelled from the spec: Animation.ts is not among the sources. *)
Record t := mk { name : string }.
End Animation.

Module IkConstraintData.
(** Modelled from the spec: IkConstraintData.ts is not among the sources. *)
Record t := mk { name : string }.
End IkConstraintData.

Module TransformConstraintData.
(** Modelled from the spec: TransformConstraintData.ts is not among the
    sources. *)
Record t := mk { name : string }.
End TransformConstraintData.

Module EventData.
Record t := mk {
  name : string;
  intValue : Z;
  floatValue : float;
  stringValue : option string;
  audioPath : option string;
  volume : float;
  balance : float
}.
Definition new (name : string) : t := mk name 0 0%float None None 0%float 0%float.
End EventData.

Module PathConstraintData.

Inductive PositionMode := PositionFixed | PositionPercent.
Inductive SpacingMode := SpacingLength | SpacingFixed | SpacingPercent.
Inductive RotateMode := Tangent | Chain | ChainScale.

(** [name], [order] and [skinRequired] are the fields of ConstraintData. *)
Record t := mk {
  name : string;
  order : Z;
  skinRequired : bool;
  bones : list BoneData.t;
  _target : option SlotData.t;
  positionMode : PositionMode;
  spacingMode : SpacingMode;
  rotateMode : RotateMode;
  offsetRotation : float;
  position : float;
  spacing : float;
  rotateMix : float;
  translateMix : float
}.

Definition new (name : string) : t :=
  mk name 0 false [] None PositionFixed SpacingFixed Chain
     0%float 0%float 0%float 0%float 0%float.

(** [set target(slotData)]. *)
Definition set_target (this : t) (slotData : SlotData.t) : t :=
  mk (name this) (order this) (skinRequired this) (bones this) (Some slotData)
     (positionMode this) (spacingMode this) (rotateMode this)
     (offsetRotation this) (position this) (spacing this) (rotateMix this)
     (translateMix this).

(** [get target()]: the result, and the receiver after the read. *)
Definition get_target (this : t) : JS.completion SlotData.t * t :=
  match _target this with
  | None => (JS.Throw "SlotData not set.", this)
  | Some slotData => (JS.Normal slotData, this)
  end.

End PathConstraintData.

#[global] Instance BoneData_named : Named BoneData.t := BoneData.name.
#[global] Instance SlotData_named : Named SlotData.t := SlotData.name.
#[global] Instance Skin_named : Named Skin.t := Skin.name.
#[global] Instance EventData_named : Named EventData.t := EventData.name.
#[global] Instance Animation_named : Named Animation.t := Animation.name.
#[global] Instance IkConstraintData_named : Named IkConstraintData.t :=
  IkConstraintData.name.
#[global] Instance TransformConstraintData_named
  : Named TransformConstraintData.t := TransformConstraintData.name.
#[global] Instance PathConstraintData_named : Named PathConstraintData.t :=
  PathConstraintData.name.

Module SkeletonData.

Record t := mk {
  name : option string;
  bones : list BoneData.t;
  slots : list SlotData.t;
  skins : list Skin.t;
  defaultSkin : option Skin.t;
  events : list EventData.t;
  animations : list Animation.t;
  ikConstraints : list IkConstraintData.t;
  transformConstraints : list TransformConstraintData.t;
  pathConstraints : list PathConstraintData.t;
  x : float;
  y : float;
  width : float;
  height : float;
  version : option string;
  hash : option string;
  fps : float;
  imagesPath : option string;
  audioPath : option string
}.

(** The loop of every lookup,
    [for (let i = 0, n = arr.length; i < n; i++) if (arr[i].name == x) return ...],
    from index [i] on: the index and the element at which it returns. *)
Fixpoint scan {A} `{Named A} (arr : list A) (x : string) (i : Z)
    : option (Z * A) :=
  match arr with
  | [] => None
  | e :: rest =>
      if String.eqb (nameOf e) x then Some (i, e) else scan rest x (i + 1)
  end.

(** The lookups that return the element, or null. *)
Definition find {A} `{Named A} (message : string) (arr : list A)
    (x : option string) : JS.completion (option A) :=
  match x with
  | None => JS.Throw message
  | Some x =>
      match scan arr x 0 with
      | Some (_, e) => JS.Normal (Some e)
      | None => JS.Normal None
      end
  end.

(** The lookups that return the index, or -1. *)
Definition findIndex {A} `{Named A} (message : string) (arr : list A)
    (x : option string) : JS.completion Z :=
  match x with
  | None => JS.Throw message
  | Some x =>
      match scan arr x 0 with
      | Some (i, _) => JS.Normal i
      | None => JS.Normal (-1)
      end
  end.

Definition findBone (this : t) (boneName : option string) :=
  find "boneName cannot be null." (bones this) boneName.
Definition findBoneIndex (this : t) (boneName : option string) :=
  findIndex "boneName cannot be null." (bones this) boneName.
Definition findSlot (this : t) (slotName : option string) :=
  find "slotName cannot be null." (slots this) slotName.
Definition findSlotIndex (this : t) (slotName : option string) :=
  findIndex "slotName cannot be null." (slots this) slotName.
Definition findSkin (this : t) (skinName : option string) :=
  find "skinName cannot be null." (skins this) skinName.
Definition findEvent (this : t) (eventDataName : option string) :=
  find "eventDataName cannot be null." (events this) eventDataName.
Definition findAnimation (this : t) (animationName : option string) :=
  find "animationName cannot be null." (animations this) animationName.
Definition findIkConstraint (this : t) (constraintName : option string) :=
  find "constraintName cannot be null." (ikConstraints this) constraintName.
Definition findTransformConstraint (this : t) (constraintName : option string) :=
  find "constraintName cannot be null." (transformConstraints this) constraintName.
Definition findPathConstraint (this : t) (constraintName : option string) :=
  find "constraintName cannot be null." (pathConstraints this) constraintName.
Definition findPathConstraintIndex (this : t) (pathConstraintName : option string) :=
  findIndex "pathConstraintName cannot be null." (pathConstraints this)
    pathConstraintName.

End SkeletonData.

(** * Properties *)

(** ** Loops and 32-bit operators *)

Lemma while_unfold {S} fuel (cond : S -> bool) body (s : S) :
  JS.while (Datatypes.S fuel) cond body s
  = if cond s then JS.bind (body s) (JS.while fuel cond body) else JS.Normal s.
Proof. reflexivity. Qed.

Lemma while_done {S} fuel (cond : S -> bool) body (s : S) :
  cond s = false -> JS.while fuel cond body s = JS.Normal s.
Proof. intros H. destruct fuel; simpl; rewrite H; reflexivity. Qed.



(** ** The unweighted path of computeWorldVertices *)

Section Unweighted.

Variable vertices : list float.
Variable bone : Bone.t.
Variable stride : Z.

(** The two numbers written for the vertex read at index [v]. *)
Definition worldXAt (v : Z) : float :=
  (JS.get vertices v * Bone.a bone + JS.get vertices (v + 1) * Bone.b bone
   + Bone.worldX bone)%float.
Definition worldYAt (v : Z) : float :=
  (JS.get vertices v * Bone.c bone + JS.get vertices (v + 1) * Bone.d bone
   + Bone.worldY bone)%float.

(** The buffer after [n] more rounds of the loop. *)
Fixpoint rounds (n : nat) (v w : Z) (out : Skinning.buffer) : Skinning.buffer :=
  match n with
  | O => out
  | S n' =>
      rounds n' (v + 2) (w + stride)
        (<[w + 1 := worldYAt v]> (<[w := worldXAt v]> out))
  end.

Lemma unweighted_while (n : nat) : forall fuel count v w out,
  0 < stride -> count = w + Z.of_nat n * stride -> (n <= fuel)%nat ->
  JS.while fuel (fun s : Z * Z * Skinning.buffer => s.1.2 <? count)
    (Skinning.unweighted_step vertices stride bone) (v, w, out)
  = JS.Normal (v + 2 * Z.of_nat n, count, rounds n v w out).
Proof.
  induction n as [|n IH]; intros fuel count v w out Hs Hc Hf.
  - rewrite while_done.
    + simpl. do 2 f_equal. f_equal; lia.
    + simpl. apply Z.ltb_ge. lia.
  - destruct fuel as [|fuel]; [lia|].
    rewrite while_unfold. cbn [fst snd].
    replace (w <? count) with true by (symmetry; apply Z.ltb_lt; nia).
    cbn [Skinning.unweighted_step JS.bind].
    rewrite (IH fuel count) by (try lia; nia).
    cbn [rounds]. do 2 f_equal. f_equal. lia.
Qed.




End Unweighted.


(** ** Binary64 facts used by the weighted path *)

Lemma digits2_pos_iter_xO (m k : positive) :
  Z.pos (digits2_pos (Pos.iter xO m k)) = Z.pos (digits2_pos m) + Z.pos k.
Proof.
  induction k as [|k IH] using Pos.peano_ind.
  - cbn [Pos.iter digits2_pos]. lia.
  - rewrite Pos.iter_succ. cbn [digits2_pos]. lia.
Qed.

Lemma SFmul_one (x : spec_float) :
  valid_binary x = true ->
  SF64mul x (S754_finite false 4503599627370496 (-52)) = x.
Proof.
  destruct x as [s|s|  |s m e]; intros Hv; cbn [SF64mul SFmul];
    rewrite ?xorb_false_r; try reflexivity.
  unfold valid_binary, bounded, canonical_mantissa in Hv.
  apply andb_true_iff in Hv. destruct Hv as [Hc He].
  apply Z.eqb_eq in Hc.
  replace (PosDef.Pos.mul m 4503599627370496) with (Pos.iter xO m 52)
    by (rewrite Pos.mul_comm; reflexivity).
  unfold binary_round_aux, shr_fexp, Zdigits2.
  rewrite digits2_pos_iter_xO.
  replace (Z.pos (digits2_pos m) + 52 + (e + -52))
    with (Z.pos (digits2_pos m) + e) by lia.
  rewrite Hc.
  replace (e - (e + -52)) with 52 by lia.
  change (shr (shr_record_of_loc (Z.pos (Pos.iter xO m 52)) loc_Exact) (e + -52) 52)
    with (shr_record_of_loc (Z.pos m) loc_Exact, e + -52 + 52).
  cbn [shr_record_of_loc shr_m loc_of_shr_record round_nearest_even].
  replace (e + -52 + 52) with e by lia.
  rewrite Hc, Z.sub_diag.
  cbn [shr shr_m]. rewrite He. reflexivity.
Qed.

Lemma SFadd_zero (x : spec_float) :
  SF64add (S754_zero false) x
  = match x with S754_zero _ => S754_zero false | _ => x end.
Proof. destruct x as [[|]|[|]| |s m e]; reflexivity. Qed.

(** [0 + u * 1] is [u], except that it is [+0] when [u] is [-0]. *)
Lemma zero_plus_times_one (u : float) :
  (0 + u * 1)%float = u \/ (u = (-0)%float /\ (0 + u * 1)%float = 0%float).
Proof.
  assert (H : Prim2SF (0 + u * 1)%float
              = match Prim2SF u with S754_zero _ => S754_zero false | x => x end).
  { rewrite add_spec, mul_spec.
    change (Prim2SF 1) with (S754_finite false 4503599627370496 (-52)).
    change (Prim2SF 0) with (S754_zero false).
    rewrite SFmul_one by apply Prim2SF_valid.
    rewrite SFadd_zero. destruct (Prim2SF u); reflexivity. }
  destruct (Prim2SF u) as [[|]|s| |s m e] eqn:Hu.
  - right. split; apply Prim2SF_inj; [rewrite Hu|rewrite H]; reflexivity.
  - left. apply Prim2SF_inj. rewrite H, Hu. reflexivity.
  - left. apply Prim2SF_inj. rewrite H, Hu. reflexivity.
  - left. apply Prim2SF_inj. rewrite H, Hu. reflexivity.
  - left. apply Prim2SF_inj. rewrite H, Hu. reflexivity.
Qed.

Lemma sameValueZero_weight_one (u : float) :
  JS.sameValueZero (0 + u * 1)%float u.
Proof.
  destruct (zero_plus_times_one u) as [H|[-> H]]; rewrite H.
  - left. reflexivity.
  - right. reflexivity.
Qed.

(** ** The weighted path of computeWorldVertices *)

(** The layout of [bones]: for each vertex, the number of bones that affect
    it, then the index of each of them. [groups] lists the bone indices of
    each vertex. *)
Definition encodeBones (groups : list (list Z)) : list Z :=
  concat (map (fun idx => Z.of_nat (length idx) :: idx) groups).

(** The number of (x, y, weight) triples of the vertices in [groups]. *)
Definition influences (groups : list (list Z)) : Z :=
  Z.of_nat (length (concat groups)).

Lemma iget_app_head (done rest : list Z) (n : Z) :
  JS.iget (done ++ n :: rest) (Some (Z.of_nat (length done))) = Some n.
Proof.
  unfold JS.iget.
  replace (Z.of_nat (length done) <? 0) with false by (symmetry; apply Z.ltb_ge; lia).
  rewrite Nat2Z.id. apply list_lookup_middle. reflexivity.
Qed.

Lemma get_app_head (done rest : list float) (x : float) (i : Z) :
  i = Z.of_nat (length done) -> JS.get (done ++ x :: rest) i = x.
Proof.
  intros ->. unfold JS.get.
  replace (Z.of_nat (length done) <? 0) with false by (symmetry; apply Z.ltb_ge; lia).
  rewrite Nat2Z.id. rewrite list_lookup_middle by reflexivity. reflexivity.
Qed.

Lemma skip_while (groups : list (list Z)) :
  forall fuel (done rest : list Z) (i skip : Z),
  (length groups <= fuel)%nat ->
  JS.while fuel
    (fun s : Z * JS.index * JS.index =>
       s.1.1 <? i + 2 * Z.of_nat (length groups))
    (Skinning.skip_step (done ++ encodeBones groups ++ rest))
    (i, Some (Z.of_nat (length done)), Some skip)
  = JS.Normal (i + 2 * Z.of_nat (length groups),
               Some (Z.of_nat (length (done ++ encodeBones groups))),
               Some (skip + influences groups)).
Proof.
  induction groups as [|g gs IH]; intros fuel done rest i skip Hf.
  - rewrite while_done.
    + replace (i + 2 * Z.of_nat (length (@nil (list Z)))) with i
        by (cbn [length]; lia).
      replace (skip + influences []) with skip
        by (unfold influences; cbn [concat length]; lia).
      unfold encodeBones. cbn [map concat]. rewrite app_nil_r. reflexivity.
    + cbn [fst snd length]. apply Z.ltb_ge. lia.
  - destruct fuel as [|fuel]; [cbn in Hf; lia|].
    rewrite while_unfold. cbn [fst snd].
    replace (i <? i + 2 * Z.of_nat (length (g :: gs))) with true
      by (symmetry; apply Z.ltb_lt; cbn [length]; lia).
    unfold Skinning.skip_step at 1.
    change (encodeBones (g :: gs))
      with ((Z.of_nat (length g) :: g) ++ encodeBones gs).
    cbn [app]. rewrite iget_app_head.
    cbn [JS.iadd JS.bind].
    specialize (IH fuel (done ++ Z.of_nat (length g) :: g) rest (i + 2)
                  (skip + Z.of_nat (length g))).
    rewrite <- !app_assoc in IH. cbn [app] in IH.
    replace (Z.of_nat (length done) + (Z.of_nat (length g) + 1))
      with (Z.of_nat (length (done ++ Z.of_nat (length g) :: g)))
      by (rewrite length_app; cbn [length]; lia).
    replace (i + 2 * Z.of_nat (length (g :: gs)))
      with (i + 2 + 2 * Z.of_nat (length gs)) by (cbn [length]; lia).
    rewrite <- (app_assoc g). etrans; [apply IH; cbn in Hf; lia|].
    do 2 f_equal. f_equal.
    unfold influences. cbn [concat]. rewrite length_app. lia.
Qed.

Lemma fget_at (done rest : list float) (x : float) (i : Z) :
  i = Z.of_nat (length done) -> JS.fget (done ++ x :: rest) (Some i) = x.
Proof. intros H. unfold JS.fget. apply get_app_head. exact H. Qed.

(** One vertex of the weighted path without deform: a group [1; boneIndex]
    that follows the groups of [groups], with the triple [x; y; weight]. *)
Lemma weighted_single_vertex
    (fuel : nat) (groups : list (list Z)) (rest : list Z)
    (pre post : list float) (boneIndex : Z) (x y weight : float)
    (bone : Bone.t) (slot : Slot.t) (offset stride : Z)
    (worldVertices : Skinning.buffer) :
  Slot.deform slot = [] ->
  0 <= boneIndex ->
  Skeleton.bones (Slot.skeleton slot) !! Z.to_nat boneIndex = Some bone ->
  Z.of_nat (length pre) = 3 * influences groups ->
  0 < stride ->
  (1 <= fuel)%nat -> (length groups <= fuel)%nat ->
  Skinning.computeWorldVertices fuel
    (Some (encodeBones groups ++ [1; boneIndex] ++ rest))
    (pre ++ [x; y; weight] ++ post)
    slot (2 * Z.of_nat (length groups)) 2 worldVertices offset stride
  = JS.Normal
      (<[offset + 1 :=
           (0 + (x * Bone.c bone + y * Bone.d bone + Bone.worldY bone) * weight)%float]>
         (<[offset :=
              (0 + (x * Bone.a bone + y * Bone.b bone + Bone.worldX bone) * weight)%float]>
            worldVertices)).
Proof.
  intros Hd Hb Hbone Hpre Hs Hf1 Hf2.
  unfold Skinning.computeWorldVertices. rewrite Hd. cbn [length Nat.eqb].
  change (JS.sar 2 1) with 1.
  unfold Skinning.skip_loop.
  pose proof (skip_while groups fuel [] ([1; boneIndex] ++ rest) 0 0 Hf2) as Hskip.
  cbn [app length] in Hskip. change (Z.of_nat 0) with 0 in Hskip.
  replace (0 + 2 * Z.of_nat (length groups))
    with (2 * Z.of_nat (length groups)) in Hskip by lia.
  replace (0 + influences groups) with (influences groups) in Hskip by lia.
  cbn [mbind completion_bind]. cbn [app].
  rewrite Hskip. cbn [mbind completion_bind JS.bind fst snd JS.imul].
  set (bones := encodeBones groups ++ 1 :: boneIndex :: rest).
  set (V := Z.of_nat (length (encodeBones groups))).
  destruct fuel as [|fuel]; [lia|].
  rewrite while_unfold. cbn [fst snd].
  replace (offset <? offset + 1 * stride) with true
    by (symmetry; apply Z.ltb_lt; lia).
  unfold Skinning.weighted_step at 1.
  assert (HV : JS.iget bones (Some V) = Some 1) by apply iget_app_head.
  rewrite HV. cbn [JS.iadd mbind completion_bind].
  rewrite while_unfold. cbn [fst snd JS.iltb].
  replace (V + 1 <? 1 + (V + 1)) with true by (symmetry; apply Z.ltb_lt; lia).
  unfold Skinning.weighted_inner_step at 1, Skinning.boneAt.
  assert (HV1 : JS.iget bones (Some (V + 1)) = Some boneIndex).
  { unfold bones.
    change (encodeBones groups ++ 1 :: boneIndex :: rest)
      with (encodeBones groups ++ [1] ++ boneIndex :: rest).
    rewrite app_assoc.
    replace (V + 1) with (Z.of_nat (length (encodeBones groups ++ [1])))
      by (rewrite length_app; cbn [length]; lia).
    apply iget_app_head. }
  rewrite HV1.
  replace (boneIndex <? 0) with false by (symmetry; apply Z.ltb_ge; lia).
  rewrite Hbone. cbn [mbind completion_bind JS.bind JS.iadd].
  assert (Hx : JS.fget (pre ++ x :: y :: weight :: post)
                 (Some (influences groups * 3)) = x)
    by (apply fget_at; lia).
  assert (Hy : JS.fget (pre ++ x :: y :: weight :: post)
                 (Some (influences groups * 3 + 1)) = y).
  { change (pre ++ x :: y :: weight :: post)
      with (pre ++ [x] ++ y :: weight :: post).
    rewrite app_assoc. apply fget_at. rewrite length_app. cbn [length]. lia. }
  assert (Hw : JS.fget (pre ++ x :: y :: weight :: post)
                 (Some (influences groups * 3 + 2)) = weight).
  { change (pre ++ x :: y :: weight :: post)
      with (pre ++ [x; y] ++ weight :: post).
    rewrite app_assoc. apply fget_at. rewrite length_app. cbn [length]. lia. }
  rewrite Hx, Hy, Hw.
  rewrite (while_done (S := JS.index * JS.index * float * float))
    by (cbn [fst snd JS.iltb]; apply Z.ltb_ge; lia).
  cbn [mbind completion_bind JS.bind].
  rewrite while_done
    by (cbn [fst snd]; apply Z.ltb_ge; lia).
  reflexivity.
Qed.

(** C2. A vertex of a weighted attachment with one influencing bone of
    weight 1.0 (its group follows the groups of any number of earlier
    vertices), computed with an empty deform, gets [0 + u * 1] where [u] is
    what the unweighted path computes for the same bone and the same local
    [(x, y)]; the two outputs are the same number (SameValueZero: they differ
    only where [u] is [-0] and the weighted sum is [+0]). *)
Theorem weighted_weight_one_matches_unweighted
    (fuel : nat) (groups : list (list Z)) (rest : list Z)
    (pre post : list float) (boneIndex : Z) (x y : float)
    (weighted unweighted : Slot.t) (offset stride : Z)
    (worldVertices : Skinning.buffer) :
  Slot.deform weighted = [] ->
  Slot.deform unweighted = [] ->
  0 <= boneIndex ->
  Skeleton.bones (Slot.skeleton weighted) !! Z.to_nat boneIndex
    = Some (Slot.bone unweighted) ->
  Z.of_nat (length pre) = 3 * influences groups ->
  0 < stride ->
  (1 <= fuel)%nat -> (length groups <= fuel)%nat ->
  exists outW outU wx wy ux uy,
    Skinning.computeWorldVertices fuel
      (Some (encodeBones groups ++ [1; boneIndex] ++ rest))
      (pre ++ [x; y; 1%float] ++ post)
      weighted (2 * Z.of_nat (length groups)) 2 worldVertices offset stride
    = JS.Normal outW
    /\ Skinning.computeWorldVertices fuel None [x; y] unweighted 0 2
         worldVertices offset stride
       = JS.Normal outU
    /\ outW !! offset = Some wx /\ outW !! (offset + 1) = Some wy
    /\ outU !! offset = Some ux /\ outU !! (offset + 1) = Some uy
    /\ wx = (0 + ux * 1)%float /\ wy = (0 + uy * 1)%float
    /\ JS.sameValueZero wx ux /\ JS.sameValueZero wy uy.
Proof.
  intros HdW HdU Hb Hbone Hpre Hs Hf1 Hf2.
  set (bone := Slot.bone unweighted) in *.
  set (ux := (x * Bone.a bone + y * Bone.b bone + Bone.worldX bone)%float).
  set (uy := (x * Bone.c bone + y * Bone.d bone + Bone.worldY bone)%float).
  exists (<[offset + 1 := (0 + uy * 1)%float]>
            (<[offset := (0 + ux * 1)%float]> worldVertices)),
         (<[offset + 1 := uy]> (<[offset := ux]> worldVertices)),
         (0 + ux * 1)%float, (0 + uy * 1)%float, ux, uy.
  split; [|split].
  - apply weighted_single_vertex; assumption.
  - unfold Skinning.computeWorldVertices, Skinning.unweighted_loop.
    rewrite HdU. cbn [length Nat.ltb Nat.leb].
    change (JS.sar 2 1) with 1.
    rewrite (unweighted_while [x; y] bone stride 1) by lia.
    reflexivity.
  - rewrite !(lookup_insert_ne _ (offset + 1) offset) by lia.
    rewrite !lookup_insert_eq.
    repeat split; auto using sameValueZero_weight_one.
Qed.

(** ** Slot *)

(** C3. [setAttachment(X)] with [X] the current attachment (the same object,
    or null when there is none) leaves the slot as it is: attachment,
    attachment time and deform unchanged. With any other [X] (null
    included) the attachment becomes [X], the attachment time becomes the
    time of the owning skeleton, and the deform is emptied; nothing else
    changes. *)
Theorem setAttachment_identity (slot : Slot.t) (X : option loc) :
  (X = Slot.attachment slot -> Slot.setAttachment slot X = slot)
  /\ (X <> Slot.attachment slot ->
        Slot.attachment (Slot.setAttachment slot X) = X
        /\ Slot.attachmentTime (Slot.setAttachment slot X)
           = Skeleton.time (Slot.skeleton slot)
        /\ Slot.deform (Slot.setAttachment slot X) = []
        /\ Slot.data (Slot.setAttachment slot X) = Slot.data slot
        /\ Slot.bone (Slot.setAttachment slot X) = Slot.bone slot
        /\ Slot.skeleton (Slot.setAttachment slot X) = Slot.skeleton slot
        /\ Slot.color (Slot.setAttachment slot X) = Slot.color slot
        /\ Slot.darkColor (Slot.setAttachment slot X) = Slot.darkColor slot
        /\ Slot.attachmentState (Slot.setAttachment slot X)
           = Slot.attachmentState slot).
Proof.
  unfold Slot.setAttachment. split; intros H.
  - destruct (decide (Slot.attachment slot = X)) as [_|Hne]; [reflexivity|].
    congruence.
  - destruct (decide (Slot.attachment slot = X)) as [He|_]; [congruence|].
    cbn. repeat split; reflexivity.
Qed.





(** ** SkeletonData lookups *)

Section Scan.

Context {A : Type} `{Named A}.

(** [e] at index [i] is the first element of [arr] named [x]. *)
Definition firstNamed (arr : list A) (x : string) (i : nat) (e : A) : Prop :=
  arr !! i = Some e /\ nameOf e = x
  /\ forall j e', (j < i)%nat -> arr !! j = Some e' -> nameOf e' <> x.

(** No element of [arr] is named [x]. *)
Definition noneNamed (arr : list A) (x : string) : Prop :=
  forall j e', arr !! j = Some e' -> nameOf e' <> x.

Lemma scan_found (arr : list A) (x : string) : forall (k : Z) (i : nat) (e : A),
  firstNamed arr x i e -> SkeletonData.scan arr x k = Some (k + Z.of_nat i, e).
Proof.
  induction arr as [|a arr IH]; intros k i e (Hi & Hn & Hbefore).
  - rewrite lookup_nil in Hi. discriminate.
  - cbn [SkeletonData.scan]. destruct i as [|i].
    + cbn in Hi. injection Hi as ->.
      rewrite (proj2 (String.eqb_eq _ _) Hn).
      do 2 f_equal. lia.
    + destruct (String.eqb (nameOf a) x) eqn:E.
      * apply String.eqb_eq in E.
        exfalso. apply (Hbefore 0%nat a); [lia|reflexivity|exact E].
      * rewrite (IH (k + 1) i e).
        -- do 2 f_equal. lia.
        -- split; [exact Hi|]. split; [exact Hn|].
           intros j e' Hj He'. apply (Hbefore (S j) e'); [lia|exact He'].
Qed.

Lemma scan_missing (arr : list A) (x : string) : forall (k : Z),
  noneNamed arr x -> SkeletonData.scan arr x k = None.
Proof.
  induction arr as [|a arr IH]; intros k Hnone; [reflexivity|].
  cbn [SkeletonData.scan].
  destruct (String.eqb (nameOf a) x) eqn:E.
  - apply String.eqb_eq in E. exfalso. apply (Hnone 0%nat a); [reflexivity|exact E].
  - apply IH. intros j e' He'. apply (Hnone (S j) e'). exact He'.
Qed.

(** Every name is either the name of a first element or of none. *)
Lemma firstNamed_or_none (arr : list A) (x : string) :
  (exists i e, firstNamed arr x i e) \/ noneNamed arr x.
Proof.
  induction arr as [|a arr IH].
  - right. intros j e' He'. rewrite lookup_nil in He'. discriminate.
  - destruct (String.eqb (nameOf a) x) eqn:E.
    + left. exists 0%nat, a. apply String.eqb_eq in E.
      split; [reflexivity|]. split; [exact E|]. intros j e' Hj. lia.
    + apply String.eqb_neq in E. destruct IH as [(i & e & Hi & Hn & Hb)|Hnone].
      * left. exists (S i), e. split; [exact Hi|]. split; [exact Hn|].
        intros [|j] e' Hj He'.
        -- cbn in He'. injection He' as <-. exact E.
        -- apply (Hb j e'); [lia|exact He'].
      * right. intros [|j] e' He'.
        -- cbn in He'. injection He' as <-. exact E.
        -- apply (Hnone j e'). exact He'.
Qed.

(** The contract of a lookup that returns the element. *)
Definition findsElement (f : option string -> JS.completion (option A))
    (arr : list A) : Prop :=
  (exists message, f None = JS.Throw message)
  /\ (forall x i e, firstNamed arr x i e -> f (Some x) = JS.Normal (Some e))
  /\ (forall x, noneNamed arr x -> f (Some x) = JS.Normal None)
  /\ (forall x, exists r, f (Some x) = JS.Normal r).

(** The contract of a lookup that returns the index. *)
Definition findsIndex (f : option string -> JS.completion Z)
    (arr : list A) : Prop :=
  (exists message, f None = JS.Throw message)
  /\ (forall x i e, firstNamed arr x i e -> f (Some x) = JS.Normal (Z.of_nat i))
  /\ (forall x, noneNamed arr x -> f (Some x) = JS.Normal (-1))
  /\ (forall x, exists r, f (Some x) = JS.Normal r).

Lemma find_findsElement (message : string) (arr : list A) :
  findsElement (SkeletonData.find message arr) arr.
Proof.
  split; [exists message; reflexivity|]. split; [|split].
  - intros x i e Hfirst. unfold SkeletonData.find.
    rewrite (scan_found arr x 0 i e Hfirst). reflexivity.
  - intros x Hnone. unfold SkeletonData.find.
    rewrite (scan_missing arr x 0 Hnone). reflexivity.
  - intros x. unfold SkeletonData.find.
    destruct (SkeletonData.scan arr x 0) as [[i e]|]; eauto.
Qed.

Lemma findIndex_findsIndex (message : string) (arr : list A) :
  findsIndex (SkeletonData.findIndex message arr) arr.
Proof.
  split; [exists message; reflexivity|]. split; [|split].
  - intros x i e Hfirst. unfold SkeletonData.findIndex.
    rewrite (scan_found arr x 0 i e Hfirst). reflexivity.
  - intros x Hnone. unfold SkeletonData.findIndex.
    rewrite (scan_missing arr x 0 Hnone). reflexivity.
  - intros x. unfold SkeletonData.findIndex.
    destruct (SkeletonData.scan arr x 0) as [[i e]|]; eauto.
Qed.

End Scan.

(** C6. Each of the eleven lookups of SkeletonData throws on a null name;
    on a non-null name it returns the first element of its list, in list
    order, whose name equals the argument (the index of that element, for
    the index variants), and when no element has that name it returns null
    (the index variants: -1); on a non-null name it never throws. *)
Theorem SkeletonData_lookups (this : SkeletonData.t) :
  findsElement (SkeletonData.findBone this) (SkeletonData.bones this)
  /\ findsIndex (SkeletonData.findBoneIndex this) (SkeletonData.bones this)
  /\ findsElement (SkeletonData.findSlot this) (SkeletonData.slots this)
  /\ findsIndex (SkeletonData.findSlotIndex this) (SkeletonData.slots this)
  /\ findsElement (SkeletonData.findSkin this) (SkeletonData.skins this)
  /\ findsElement (SkeletonData.findEvent this) (SkeletonData.events this)
  /\ findsElement (SkeletonData.findAnimation this) (SkeletonData.animations this)
  /\ findsElement (SkeletonData.findIkConstraint this)
       (SkeletonData.ikConstraints this)
  /\ findsElement (SkeletonData.findTransformConstraint this)
       (SkeletonData.transformConstraints this)
  /\ findsElement (SkeletonData.findPathConstraint this)
       (SkeletonData.pathConstraints this)
  /\ findsIndex (SkeletonData.findPathConstraintIndex this)
       (SkeletonData.pathConstraints this).
Proof.
  repeat split;
    first [ apply find_findsElement | apply findIndex_findsIndex ].
Qed.

(** ** Errors raised before any change *)

Lemma mesh_lookup (st : Store.t) (this : loc) (a : Attachment.t)
    (m : Attachment.mesh) :
  Store.attachments st !! this = Some a ->
  Attachment.ext a = Attachment.Mesh m ->
  MeshAttachment.mesh this st = (JS.Normal (Attachment.base a, m), st).
Proof.
  intros Ha Hm.
  unfold MeshAttachment.mesh, mbind, store_bind, Store.bind, Store.attachment.
  rewrite Ha, Hm. reflexivity.
Qed.

(** C7. Reading [target] of a PathConstraintData whose target was never
    assigned throws; after [target = slotData] the read returns [slotData].
    [updateUVs] on a mesh whose region is null throws. In each case the
    throw leaves the receiver (for [updateUVs], the whole store) as it was
    before the call. *)
Theorem unset_references_throw :
  (forall this : PathConstraintData.t,
     PathConstraintData._target this = None ->
     PathConstraintData.get_target this = (JS.Throw "SlotData not set.", this))
  /\ (forall name : string,
        PathConstraintData.get_target (PathConstraintData.new name)
        = (JS.Throw "SlotData not set.", PathConstraintData.new name))
  /\ (forall (this : PathConstraintData.t) (slotData : SlotData.t),
        PathConstraintData.get_target (PathConstraintData.set_target this slotData)
        = (JS.Normal slotData, PathConstraintData.set_target this slotData))
  /\ (forall (st : Store.t) (this : loc) (a : Attachment.t) (m : Attachment.mesh),
        Store.attachments st !! this = Some a ->
        Attachment.ext a = Attachment.Mesh m ->
        Attachment.region m = None ->
        MeshAttachment.updateUVs this st = (JS.Throw "Region not set.", st)).
Proof.
  split; [|split; [|split]].
  - intros this H. unfold PathConstraintData.get_target. rewrite H. reflexivity.
  - intros name. reflexivity.
  - intros this slotData. reflexivity.
  - intros st this a m Ha Hm Hr.
    unfold MeshAttachment.updateUVs, mbind, store_bind, Store.bind.
    rewrite (mesh_lookup st this a m Ha Hm). rewrite Hr. reflexivity.
Qed.

(** ** Attachment ids *)



(** A construction of a vertex attachment, with the (non-null) arguments of
    its constructor. *)
Inductive construction :=
| NewMesh (name path : string)
| NewBoundingBox (name : string)
| NewClipping (name : string).

Definition construct (c : construction) : Store.M loc :=
  match c with
  | NewMesh name path => MeshAttachment.new (Some name) path
  | NewBoundingBox name => BoundingBoxAttachment.new (Some name)
  | NewClipping name => ClippingAttachment.new (Some name)
  end.








(** ** MeshAttachment.updateUVs *)

Lemma get_setElement (l : list float) (i j : Z) (x : float) :
  0 <= i ->
  JS.get (Store.setElement l i x) j = if j =? i then x else JS.get l j.
Proof.
  intros Hi. unfold Store.setElement, JS.get.
  replace (i <? 0) with false by (symmetry; apply Z.ltb_ge; lia).
  destruct (Z.ltb_spec j 0) as [Hj|Hj].
  { replace (j =? i) with false by (symmetry; apply Z.eqb_neq; lia). reflexivity. }
  destruct (Z.ltb_spec i (Z.of_nat (length l))) as [Hl|Hl].
  - destruct (Z.eqb_spec j i) as [->|Hne].
    + rewrite list_lookup_insert_eq by lia. reflexivity.
    + rewrite list_lookup_insert_ne by lia. reflexivity.
  - destruct (Z.eqb_spec j i) as [->|Hne].
    + rewrite lookup_app_r by lia.
      rewrite lookup_app_r by (rewrite length_replicate; lia).
      rewrite length_replicate.
      replace (Z.to_nat i - length l - (Z.to_nat i - length l))%nat with 0%nat by lia.
      reflexivity.
    + destruct (Z.ltb_spec j (Z.of_nat (length l))) as [Hjl|Hjl].
      * rewrite lookup_app_l by lia. reflexivity.
      * rewrite lookup_app_r by lia.
        rewrite (lookup_ge_None_2 l) by lia.
        destruct (Z.ltb_spec j i) as [Hji|Hji].
        -- rewrite lookup_app_l by (rewrite length_replicate; lia).
           rewrite lookup_replicate_2 by lia. reflexivity.
        -- rewrite lookup_app_r by (rewrite length_replicate; lia).
           rewrite length_replicate.
           rewrite lookup_ge_None_2 by (cbn [length]; lia). reflexivity.
Qed.

(** The store with the array behind [p] replaced by [l]. *)
Definition withFloats (st : Store.t) (p : loc) (l : list float) : Store.t :=
  Store.mk (<[p := l]> (Store.floats st)) (Store.ints st)
    (Store.attachments st) (Store.nextID st).

Lemma withFloats_id (st : Store.t) (p : loc) (l : list float) :
  Store.floats st !! p = Some l -> withFloats st p l = st.
Proof.
  intros H. unfold withFloats. rewrite insert_id by exact H.
  destruct st; reflexivity.
Qed.

Lemma store_withFloats (st : Store.t) (p : loc) (l : list float) (i : Z) (x : float) :
  Store.store (withFloats st p l) p i x = withFloats st p (Store.setElement l i x).
Proof.
  unfold Store.store, Store.writeFloats, Store.readFloats, withFloats.
  cbn [Store.floats Store.ints Store.attachments Store.nextID].
  rewrite lookup_insert_eq. cbn [default]. rewrite insert_insert_eq. reflexivity.
Qed.

Lemma load_withFloats_ne (st : Store.t) (p q : loc) (l : list float) (i : Z) :
  p <> q -> Store.load (withFloats st p l) q i = Store.load st q i.
Proof.
  intros Hne. unfold Store.load, Store.readFloats, withFloats.
  cbn [Store.floats]. rewrite lookup_insert_ne by exact Hne. reflexivity.
Qed.

Lemma load_withFloats_eq (st : Store.t) (p : loc) (l : list float) (i : Z) :
  Store.load (withFloats st p l) p i = JS.get l i.
Proof.
  unfold Store.load, Store.readFloats, withFloats.
  cbn [Store.floats]. rewrite lookup_insert_eq. reflexivity.
Qed.

Section UvLoop.

Variables (first second : (Z -> float) -> Z -> float).
Variable regionValues : list float.

(** The array [uvs] after [m] more rounds of the loop from index [i], when
    [regionUVs] is another array, holding [regionValues]. *)
Fixpoint uvRounds (m : nat) (i : Z) (l : list float) : list float :=
  match m with
  | O => l
  | S m' =>
      uvRounds m' (i + 2)
        (Store.setElement
           (Store.setElement l i (first (JS.get regionValues) i))
           (i + 1) (second (JS.get regionValues) i))
  end.

Lemma uvRounds_before (m : nat) : forall i l j,
  0 <= i -> j < i -> JS.get (uvRounds m i l) j = JS.get l j.
Proof.
  induction m as [|m IH]; intros i l j Hi Hj; [reflexivity|].
  cbn [uvRounds]. rewrite IH by lia.
  rewrite !get_setElement by lia.
  replace (j =? i + 1) with false by (symmetry; apply Z.eqb_neq; lia).
  replace (j =? i) with false by (symmetry; apply Z.eqb_neq; lia).
  reflexivity.
Qed.

Lemma uvRounds_written (m : nat) : forall i l t,
  0 <= i -> 0 <= t < Z.of_nat m ->
  JS.get (uvRounds m i l) (i + 2 * t) = first (JS.get regionValues) (i + 2 * t)
  /\ JS.get (uvRounds m i l) (i + 2 * t + 1)
     = second (JS.get regionValues) (i + 2 * t).
Proof.
  induction m as [|m IH]; intros i l t Hi Ht; [lia|].
  cbn [uvRounds]. destruct (Z.eq_dec t 0) as [->|Hne].
  - replace (i + 2 * 0) with i by lia.
    rewrite !uvRounds_before by lia.
    rewrite !get_setElement by lia.
    rewrite Z.eqb_refl.
    replace (i =? i + 1) with false by (symmetry; apply Z.eqb_neq; lia).
    rewrite Z.eqb_refl. auto.
  - destruct (IH (i + 2)
               (Store.setElement
                  (Store.setElement l i (first (JS.get regionValues) i))
                  (i + 1) (second (JS.get regionValues) i)) (t - 1))
      as [H1 H2]; [lia|lia|].
    replace (i + 2 + 2 * (t - 1)) with (i + 2 * t) in * by lia.
    auto.
Qed.

Variables (st : Store.t) (uvs regionUVs : loc) (n : Z).
Hypothesis distinct : uvs <> regionUVs.
Hypothesis regionUVs_held : Store.floats st !! regionUVs = Some regionValues.

Lemma uvStep_withFloats (i : Z) (l : list float) :
  MeshAttachment.uvStep uvs regionUVs first second (i, withFloats st uvs l)
  = JS.Normal
      (i + 2,
       withFloats st uvs
         (Store.setElement
            (Store.setElement l i (first (JS.get regionValues) i))
            (i + 1) (second (JS.get regionValues) i))).
Proof.
  unfold MeshAttachment.uvStep.
  rewrite !store_withFloats.
  assert (Hload : forall l', Store.load (withFloats st uvs l') regionUVs
                             = JS.get regionValues).
  { intros l'. unfold Store.load, Store.readFloats, withFloats.
    cbn [Store.floats]. rewrite lookup_insert_ne by exact distinct.
    rewrite regionUVs_held. reflexivity. }
  rewrite !Hload. reflexivity.
Qed.

End UvLoop.

Lemma uvWhile (first second : (Z -> float) -> Z -> float)
    (regionValues : list float) (st : Store.t) (uvs regionUVs : loc) (n : Z) :
  uvs <> regionUVs ->
  Store.floats st !! regionUVs = Some regionValues ->
  forall (m fuel : nat) (i : Z) (l : list float),
  (m <= fuel)%nat ->
  n <= i + 2 * Z.of_nat m -> (m = 0%nat \/ i + 2 * Z.of_nat m - 2 < n) ->
  JS.while fuel (fun s : Z * Store.t => s.1 <? n)
    (MeshAttachment.uvStep uvs regionUVs first second) (i, withFloats st uvs l)
  = JS.Normal
      (i + 2 * Z.of_nat m,
       withFloats st uvs (uvRounds first second regionValues m i l)).
Proof.
  intros Hd Hr. induction m as [|m IH]; intros fuel i l Hf Hn Hm.
  - rewrite while_done by (cbn [fst]; apply Z.ltb_ge; lia).
    cbn [uvRounds]. do 2 f_equal. lia.
  - destruct fuel as [|fuel]; [lia|].
    rewrite while_unfold. cbn [fst].
    replace (i <? n) with true by (symmetry; apply Z.ltb_lt; lia).
    rewrite (uvStep_withFloats first second regionValues st uvs regionUVs Hd Hr).
    cbn [JS.bind]. rewrite IH by lia.
    cbn [uvRounds]. do 2 f_equal. lia.
Qed.

Lemma uvLoop_spec (first second : (Z -> float) -> Z -> float)
    (regionValues values : list float) (st : Store.t) (uvs regionUVs : loc) :
  uvs <> regionUVs ->
  Store.floats st !! regionUVs = Some regionValues ->
  Store.floats st !! uvs = Some values ->
  exists values',
    MeshAttachment.uvLoop uvs regionUVs (Z.of_nat (length values)) first second st
    = (JS.Normal tt, withFloats st uvs values')
    /\ forall k, 0 <= k -> 2 * k + 1 < Z.of_nat (length values) ->
         JS.get values' (2 * k) = first (JS.get regionValues) (2 * k)
         /\ JS.get values' (2 * k + 1) = second (JS.get regionValues) (2 * k).
Proof.
  intros Hd Hr Hu.
  set (n := Z.of_nat (length values)).
  set (m := Z.to_nat ((n + 1) / 2)).
  assert (Hn : 0 <= n) by (unfold n; lia).
  pose proof (Z.div_mod (n + 1) 2 ltac:(lia)) as Hdiv.
  pose proof (Z.mod_pos_bound (n + 1) 2 ltac:(lia)) as Hmod.
  assert (Hm : Z.of_nat m = (n + 1) / 2) by (unfold m; lia).
  exists (uvRounds first second regionValues m 0 values).
  split.
  - unfold MeshAttachment.uvLoop.
    rewrite <- (withFloats_id st uvs values Hu) at 1.
    rewrite (uvWhile first second regionValues st uvs regionUVs n Hd Hr m)
      by lia.
    reflexivity.
  - intros k Hk Hkn.
    destruct (uvRounds_written first second regionValues m 0 values k)
      as [H1 H2]; [lia|lia|].
    rewrite !Z.add_0_l in *. auto.
Qed.

Lemma ensureUVs_spec (st : Store.t) (this : loc) (a : Attachment.t)
    (m : Attachment.mesh) (regionValues values : list float) :
  Store.attachments st !! this = Some a ->
  Attachment.ext a = Attachment.Mesh m ->
  Store.floats st !! Attachment.regionUVs m = Some regionValues ->
  Store.floats st !! Attachment.uvs m = Some values ->
  Attachment.uvs m <> Attachment.regionUVs m ->
  exists uvs st1 m1 values1,
    MeshAttachment.ensureUVs this m st = (JS.Normal uvs, st1)
    /\ Store.floats st1 !! uvs = Some values1
    /\ length values1 = length regionValues
    /\ Store.floats st1 !! Attachment.regionUVs m = Some regionValues
    /\ uvs <> Attachment.regionUVs m
    /\ Store.attachments st1 !! this
       = Some (Attachment.mk (Attachment.base a) (Attachment.Mesh m1))
    /\ Attachment.uvs m1 = uvs
    /\ Attachment.regionUVs m1 = Attachment.regionUVs m
    /\ m1 = Attachment.set_uvs uvs m
    /\ Store.attachments st1
       = <[this := Attachment.mk (Attachment.base a) (Attachment.Mesh m1)]>
           (Store.attachments st)
    /\ Store.ints st1 = Store.ints st
    /\ Store.nextID st1 = Store.nextID st
    /\ (forall p x, Store.floats st !! p = Some x -> p <> uvs ->
          Store.floats st1 !! p = Some x)
    /\ (uvs = Attachment.uvs m \/ Store.floats st !! uvs = None).
Proof.
  intros Ha Hm Hr Hu Hd.
  unfold MeshAttachment.ensureUVs, mbind, store_bind, Store.bind,
    VertexAttachment.floatsOf, Store.readFloats.
  rewrite Hr, Hu. cbn [default].
  assert (Hobj : a = Attachment.mk (Attachment.base a) (Attachment.Mesh m))
    by (destruct a as [b e]; cbn in Hm; subst e; reflexivity).
  case_bool_decide as Hlen.
  - exists (Attachment.uvs m), st, m, values.
    repeat split; try assumption; try reflexivity.
    + rewrite Ha. f_equal. exact Hobj.
    + destruct m; reflexivity.
    + rewrite <- Hobj. symmetry. apply insert_id. exact Ha.
    + intros p x Hp _. exact Hp.
    + left. reflexivity.
  - set (p := fresh (dom (Store.floats st))).
    assert (Hp : p ∉ dom (Store.floats st)) by apply is_fresh.
    assert (Hpr : p <> Attachment.regionUVs m).
    { intros ->. apply Hp. apply elem_of_dom. eauto. }
    unfold Utils.newFloatArray, Store.newFloats, Store.update, mret, store_ret,
      Store.ret.
    cbn [Store.attachments Store.floats Store.ints Store.nextID].
    rewrite Ha. fold p.
    eexists p, _, (Attachment.set_uvs p m), (replicate (length regionValues) 0%float).
    split; [reflexivity|].
    cbn [Store.attachments Store.floats Store.ints Store.nextID].
    rewrite lookup_insert_eq, lookup_insert_ne by congruence.
    rewrite lookup_insert_eq, length_replicate.
    assert (Hwith : Attachment.with_mesh (Attachment.set_uvs p) a
                    = Attachment.mk (Attachment.base a)
                        (Attachment.Mesh (Attachment.set_uvs p m)))
      by (unfold Attachment.with_mesh; rewrite Hm; reflexivity).
    rewrite Hwith.
    repeat split; try assumption; try reflexivity.
    + intros q x Hq Hqp. rewrite lookup_insert_ne by congruence. exact Hq.
    + right. apply not_elem_of_dom. exact Hp.
Qed.

(** C5. [updateUVs] on a mesh whose region is a TextureAtlasRegion, with
    [regionUVs] and [uvs] two arrays of the store, returns, does not change
    [regionUVs], and leaves in [uvs], for every vertex [k] (both [2k] and
    [2k + 1] within [regionUVs]):
    - degrees 90: [uvs[2k] = u' + regionUVs[2k+1] * width'] and
      [uvs[2k+1] = v' + (1 - regionUVs[2k]) * height'], with
      [u' = u - (originalHeight - offsetY - height) / textureWidth],
      [v' = v - (originalWidth - offsetX - width) / textureHeight],
      [width' = originalHeight / textureWidth] and
      [height' = originalWidth / textureHeight];
    - degrees 180, degrees 270 and any other value of degrees (the unrotated
      case): the three other formulas of the source, each with its own
      origin and size. *)
Theorem updateUVs_atlas_region
    (st : Store.t) (this : loc) (a : Attachment.t) (m : Attachment.mesh)
    (region : TextureRegion.t) (page : TextureRegion.atlasRegion)
    (regionValues values : list float) :
  Store.attachments st !! this = Some a ->
  Attachment.ext a = Attachment.Mesh m ->
  Attachment.region m = Some region ->
  TextureRegion.atlas region = Some page ->
  Store.floats st !! Attachment.regionUVs m = Some regionValues ->
  Store.floats st !! Attachment.uvs m = Some values ->
  Attachment.uvs m <> Attachment.regionUVs m ->
  let u := TextureRegion.u region in
  let v := TextureRegion.v region in
  let width := TextureRegion.width region in
  let height := TextureRegion.height region in
  let offsetX := TextureRegion.offsetX region in
  let offsetY := TextureRegion.offsetY region in
  let originalWidth := TextureRegion.originalWidth region in
  let originalHeight := TextureRegion.originalHeight region in
  let textureWidth := TextureRegion.textureWidth page in
  let textureHeight := TextureRegion.textureHeight page in
  let degrees := TextureRegion.degrees page in
  exists st' m',
    MeshAttachment.updateUVs this st = (JS.Normal tt, st')
    /\ Store.attachments st' !! this
       = Some (Attachment.mk (Attachment.base a) (Attachment.Mesh m'))
    /\ Attachment.regionUVs m' = Attachment.regionUVs m
    /\ Store.floats st' !! Attachment.regionUVs m = Some regionValues
    /\ forall k, 0 <= k -> 2 * k + 1 < Z.of_nat (length regionValues) ->
       let ru := JS.get regionValues (2 * k) in
       let rv := JS.get regionValues (2 * k + 1) in
       let out_u := Store.load st' (Attachment.uvs m') (2 * k) in
       let out_v := Store.load st' (Attachment.uvs m') (2 * k + 1) in
       (degrees = 90 ->
          out_u = (u - (originalHeight - offsetY - height) / textureWidth
                   + rv * (originalHeight / textureWidth))%float
          /\ out_v = (v - (originalWidth - offsetX - width) / textureHeight
                      + (1 - ru) * (originalWidth / textureHeight))%float)
       /\ (degrees = 180 ->
             out_u = (u - (originalWidth - offsetX - width) / textureWidth
                      + (1 - ru) * (originalWidth / textureWidth))%float
             /\ out_v = (v - offsetY / textureHeight
                         + (1 - rv) * (originalHeight / textureHeight))%float)
       /\ (degrees = 270 ->
             out_u = (u - offsetY / textureWidth
                      + (1 - rv) * (originalHeight / textureWidth))%float
             /\ out_v = (v - offsetX / textureHeight
                         + ru * (originalWidth / textureHeight))%float)
       /\ (degrees <> 90 -> degrees <> 180 -> degrees <> 270 ->
             out_u = (u - offsetX / textureWidth
                      + ru * (originalWidth / textureWidth))%float
             /\ out_v = (v - (originalHeight - offsetY - height) / textureHeight
                         + rv * (originalHeight / textureHeight))%float).
Proof.
  intros Ha Hm Hreg Hatlas Hr Hu Hd.
  intros u v width height offsetX offsetY originalWidth originalHeight
    textureWidth textureHeight degrees.
  destruct (ensureUVs_spec st this a m regionValues values Ha Hm Hr Hu Hd)
    as (uvs & st1 & m1 & values1 & He & Hu1 & Hlen & Hr1 & Hd1 & Ha1 & Hm1
        & Hru1 & _).
  assert (Hrun : forall first second,
    exists st',
      MeshAttachment.uvLoop uvs (Attachment.regionUVs m)
        (Z.of_nat (length values1)) first second st1 = (JS.Normal tt, st')
      /\ Store.attachments st' !! this
         = Some (Attachment.mk (Attachment.base a) (Attachment.Mesh m1))
      /\ Store.floats st' !! Attachment.regionUVs m = Some regionValues
      /\ forall k, 0 <= k -> 2 * k + 1 < Z.of_nat (length regionValues) ->
           Store.load st' uvs (2 * k) = first (JS.get regionValues) (2 * k)
           /\ Store.load st' uvs (2 * k + 1)
              = second (JS.get regionValues) (2 * k)).
  { intros first second.
    destruct (uvLoop_spec first second regionValues values1 st1 uvs
                (Attachment.regionUVs m) Hd1 Hr1 Hu1) as (values' & Hloop & Hvals).
    exists (withFloats st1 uvs values'). split; [exact Hloop|].
    split; [exact Ha1|]. split.
    - unfold withFloats. cbn [Store.floats].
      rewrite lookup_insert_ne by exact Hd1. exact Hr1.
    - intros k Hk Hkn. rewrite !load_withFloats_eq.
      apply Hvals; [exact Hk|]. rewrite Hlen. exact Hkn. }
  unfold MeshAttachment.updateUVs.
  unfold mbind, store_bind, Store.bind in *.
  rewrite (mesh_lookup st this a m Ha Hm). rewrite Hreg, He.
  unfold VertexAttachment.floatsOf, Store.readFloats. rewrite Hu1.
  cbn [default]. rewrite Hatlas. fold degrees.
  destruct (Z.eqb_spec degrees 90) as [E90|E90];
    [|destruct (Z.eqb_spec degrees 180) as [E180|E180];
      [|destruct (Z.eqb_spec degrees 270) as [E270|E270]]];
    match goal with
    | |- context [MeshAttachment.uvLoop _ _ _ ?f ?s st1] =>
        destruct (Hrun f s) as (st' & Hloop & Ha' & Hr' & Hvals)
    end;
    exists st', m1;
    (split; [exact Hloop|]); (split; [exact Ha'|]);
    (split; [exact Hru1|]); (split; [exact Hr'|]);
    intros k Hk Hkn; rewrite Hm1;
    destruct (Hvals k Hk Hkn) as [H1 H2];
    cbn zeta; rewrite H1, H2;
    repeat split; intros; try lia; reflexivity.
Qed.

(** ** Copies of attachments *)

Lemma update_run (st : Store.t) (p : loc) (a : Attachment.t)
    (f : Attachment.t -> Attachment.t) :
  Store.attachments st !! p = Some a ->
  Store.update p f st
  = (JS.Normal tt,
     Store.mk (Store.floats st) (Store.ints st)
       (<[p := f a]> (Store.attachments st)) (Store.nextID st)).
Proof. intros H. unfold Store.update. rewrite H. reflexivity. Qed.

Lemma attachment_run (st : Store.t) (p : loc) (a : Attachment.t) :
  Store.attachments st !! p = Some a ->
  Store.attachment p st = (JS.Normal a, st).
Proof. intros H. unfold Store.attachment. rewrite H. reflexivity. Qed.

Lemma bind_run {A B} (m : Store.M A) (k : A -> Store.M B) (st st1 : Store.t) (x : A) :
  m st = (JS.Normal x, st1) -> (m ≫= k) st = k x st1.
Proof. intros H. unfold mbind, store_bind, Store.bind. rewrite H. reflexivity. Qed.

Lemma arrayCopy_all {A} (source dest : list A) :
  length dest = length source ->
  Utils.arrayCopy source dest (length source) = source.
Proof.
  intros H. unfold Utils.arrayCopy.
  rewrite firstn_all, drop_ge by lia. apply app_nil_r.
Qed.

Lemma readFloats_alloc (st : Store.t) (source : loc) (fill : float) :
  Store.readFloats
    (Store.mk
       (<[fresh (dom (Store.floats st))
          := replicate (length (Store.readFloats st source)) fill]>
          (Store.floats st))
       (Store.ints st) (Store.attachments st) (Store.nextID st)) source
  = Store.readFloats st source.
Proof.
  set (p := fresh (dom (Store.floats st))).
  assert (Hp : Store.floats st !! p = None)
    by (apply not_elem_of_dom; apply is_fresh).
  unfold Store.readFloats. cbn [Store.floats].
  destruct (decide (p = source)) as [E|Hne].
  - rewrite <- E, Hp, lookup_insert_eq. reflexivity.
  - rewrite lookup_insert_ne by exact Hne. reflexivity.
Qed.

Lemma readInts_alloc (st : Store.t) (source : loc) (fill : Z) :
  Store.readInts
    (Store.mk (Store.floats st)
       (<[fresh (dom (Store.ints st))
          := replicate (length (Store.readInts st source)) fill]>
          (Store.ints st))
       (Store.attachments st) (Store.nextID st)) source
  = Store.readInts st source.
Proof.
  set (p := fresh (dom (Store.ints st))).
  assert (Hp : Store.ints st !! p = None)
    by (apply not_elem_of_dom; apply is_fresh).
  unfold Store.readInts. cbn [Store.ints].
  destruct (decide (p = source)) as [E|Hne].
  - rewrite <- E, Hp, lookup_insert_eq. reflexivity.
  - rewrite lookup_insert_ne by exact Hne. reflexivity.
Qed.

(** A new array filled from [source]: what [new Array(n)] (or
    [Utils.newFloatArray(n)]) followed by [Utils.arrayCopy] leaves. *)
Lemma copyFloats_run (st : Store.t) (source : loc) (fill : float) :
  let p := fresh (dom (Store.floats st)) in
  let n := length (Store.readFloats st source) in
  Utils.arrayCopyFloats source p n
    (Store.mk (<[p := replicate n fill]> (Store.floats st))
       (Store.ints st) (Store.attachments st) (Store.nextID st))
  = (JS.Normal tt,
     Store.mk (<[p := Store.readFloats st source]> (Store.floats st))
       (Store.ints st) (Store.attachments st) (Store.nextID st)).
Proof.
  intros p n. unfold Utils.arrayCopyFloats.
  set (st1 := Store.mk _ _ _ _).
  assert (Hp : Store.readFloats st1 p = replicate n fill).
  { unfold Store.readFloats, st1. cbn [Store.floats].
    rewrite lookup_insert_eq. reflexivity. }
  assert (Hs : Store.readFloats st1 source = Store.readFloats st source)
    by apply readFloats_alloc.
  rewrite Hp, Hs. unfold n.
  rewrite arrayCopy_all by apply length_replicate.
  unfold Store.writeFloats, st1.
  cbn [Store.floats Store.ints Store.attachments Store.nextID].
  rewrite lookup_insert_eq, insert_insert_eq. reflexivity.
Qed.

Lemma copyInts_run (st : Store.t) (source : loc) (fill : Z) :
  let p := fresh (dom (Store.ints st)) in
  let n := length (Store.readInts st source) in
  Utils.arrayCopyInts source p n
    (Store.mk (Store.floats st) (<[p := replicate n fill]> (Store.ints st))
       (Store.attachments st) (Store.nextID st))
  = (JS.Normal tt,
     Store.mk (Store.floats st) (<[p := Store.readInts st source]> (Store.ints st))
       (Store.attachments st) (Store.nextID st)).
Proof.
  intros p n. unfold Utils.arrayCopyInts.
  set (st1 := Store.mk _ _ _ _).
  assert (Hp : Store.readInts st1 p = replicate n fill).
  { unfold Store.readInts, st1. cbn [Store.ints].
    rewrite lookup_insert_eq. reflexivity. }
  assert (Hs : Store.readInts st1 source = Store.readInts st source)
    by apply readInts_alloc.
  rewrite Hp, Hs. unfold n.
  rewrite arrayCopy_all by apply length_replicate.
  unfold Store.writeInts, st1.
  cbn [Store.floats Store.ints Store.attachments Store.nextID].
  rewrite lookup_insert_eq, insert_insert_eq. reflexivity.
Qed.

Lemma cloneFloats_run (st : Store.t) (source : loc) :
  VertexAttachment.cloneFloats source st
  = (JS.Normal (fresh (dom (Store.floats st))),
     Store.mk
       (<[fresh (dom (Store.floats st)) := Store.readFloats st source]>
          (Store.floats st))
       (Store.ints st) (Store.attachments st) (Store.nextID st)).
Proof.
  unfold VertexAttachment.cloneFloats, VertexAttachment.floatsOf,
    Store.newFloats, mbind, store_bind, Store.bind, mret, store_ret, Store.ret.
  rewrite (copyFloats_run st source nan). reflexivity.
Qed.

Lemma cloneInts_run (st : Store.t) (source : loc) :
  VertexAttachment.cloneInts source st
  = (JS.Normal (fresh (dom (Store.ints st))),
     Store.mk (Store.floats st)
       (<[fresh (dom (Store.ints st)) := Store.readInts st source]>
          (Store.ints st))
       (Store.attachments st) (Store.nextID st)).
Proof.
  unfold VertexAttachment.cloneInts, VertexAttachment.intsOf,
    Store.newInts, mbind, store_bind, Store.bind, mret, store_ret, Store.ret.
  rewrite (copyInts_run st source 0). reflexivity.
Qed.

Lemma copyFloats_run' (f : gmap loc (list float)) (i : gmap loc (list Z))
    (a : gmap loc Attachment.t) (n : Z) (source : loc) (fill : float) :
  Utils.arrayCopyFloats source (fresh (dom f))
    (length (default [] (f !! source)))
    (Store.mk
       (<[fresh (dom f) := replicate (length (default [] (f !! source))) fill]> f)
       i a n)
  = (JS.Normal tt, Store.mk (<[fresh (dom f) := default [] (f !! source)]> f) i a n).
Proof. apply (copyFloats_run (Store.mk f i a n) source fill). Qed.

Lemma cloneFloats_run' (f : gmap loc (list float)) (i : gmap loc (list Z))
    (a : gmap loc Attachment.t) (n : Z) (source : loc) :
  VertexAttachment.cloneFloats source (Store.mk f i a n)
  = (JS.Normal (fresh (dom f)),
     Store.mk (<[fresh (dom f) := default [] (f !! source)]> f) i a n).
Proof. apply (cloneFloats_run (Store.mk f i a n) source). Qed.

Lemma cloneInts_run' (f : gmap loc (list float)) (i : gmap loc (list Z))
    (a : gmap loc Attachment.t) (n : Z) (source : loc) :
  VertexAttachment.cloneInts source (Store.mk f i a n)
  = (JS.Normal (fresh (dom i)),
     Store.mk f (<[fresh (dom i) := default [] (i !! source)]> i) a n).
Proof. apply (cloneInts_run (Store.mk f i a n) source). Qed.

(** What [copyTo] leaves in the destination [d], given the source [s]: new
    arrays for [bones] (if any) and [vertices], and the source's
    [worldVerticesLength] and [deformAttachment]. *)
Definition copiedBase (s d : Attachment.t) (bones : option loc) (vertices : loc)
    : Attachment.t :=
  Attachment.with_deformAttachment
    (Attachment.deformAttachment (Attachment.base s))
    (Attachment.with_worldVerticesLength
       (Attachment.worldVerticesLength (Attachment.base s))
       (Attachment.with_vertices vertices (Attachment.with_bones bones d))).

Ltac store_simpl :=
  repeat first
    [ progress cbn [Store.attachments Store.floats Store.ints Store.nextID
                    JS.bind fst snd default from_option id]
    | rewrite lookup_insert_eq
    | rewrite lookup_insert_ne by congruence
    | rewrite insert_insert_eq ].

Lemma copyTo_run (f : gmap loc (list float)) (i : gmap loc (list Z))
    (a : gmap loc Attachment.t) (n : Z) (this d : loc) (s dd : Attachment.t) :
  a !! this = Some s -> a !! d = Some dd ->
  VertexAttachment.copyTo this d (Store.mk f i a n)
  = (JS.Normal tt,
     Store.mk
       (<[fresh (dom f) := default [] (f !! Attachment.vertices (Attachment.base s))]> f)
       (match Attachment.bones (Attachment.base s) with
        | Some bl => <[fresh (dom i) := default [] (i !! bl)]> i
        | None => i
        end)
       (<[d := copiedBase s dd
                 (match Attachment.bones (Attachment.base s) with
                  | Some _ => Some (fresh (dom i))
                  | None => None
                  end)
                 (fresh (dom f))]> a)
       n).
Proof.
  intros Hs Hd.
  unfold VertexAttachment.copyTo, mbind, store_bind, Store.bind,
    Store.attachment, Store.update, VertexAttachment.floatsOf,
    Utils.newFloatArray, Store.newFloats.
  store_simpl. rewrite Hs.
  destruct s as [[sname sid sbones svertices swvl sdeform] sext].
  cbn [Attachment.base Attachment.bones Attachment.vertices
       Attachment.worldVerticesLength Attachment.deformAttachment] in *.
  destruct (decide (this = d)) as [->|Hne].
  - assert (dd = Attachment.mk
                   (Attachment.mkVertex sname sid sbones svertices swvl sdeform)
                   sext) by congruence.
    subst dd.
    destruct sbones as [bl|].
    + rewrite cloneInts_run'. store_simpl. rewrite Hd. store_simpl.
      cbn [Attachment.with_bones Attachment.base Attachment.vertices
           Attachment.name Attachment.id Attachment.worldVerticesLength
           Attachment.deformAttachment Attachment.ext].
      unfold Store.readFloats. store_simpl.
      rewrite copyFloats_run'. store_simpl. reflexivity.
    + store_simpl. rewrite Hd. store_simpl.
      cbn [Attachment.with_bones Attachment.base Attachment.vertices
           Attachment.name Attachment.id Attachment.worldVerticesLength
           Attachment.deformAttachment Attachment.ext].
      unfold Store.readFloats. store_simpl.
      rewrite copyFloats_run'. store_simpl. reflexivity.
  - destruct sbones as [bl|].
    + rewrite cloneInts_run'. store_simpl. rewrite Hd. store_simpl. rewrite Hs.
      cbn [Attachment.base Attachment.vertices Attachment.worldVerticesLength
           Attachment.deformAttachment].
      unfold Store.readFloats. store_simpl.
      rewrite copyFloats_run'.
      repeat (progress (store_simpl; rewrite ?Hs)).
      reflexivity.
    + store_simpl. rewrite Hd. store_simpl. rewrite Hs.
      cbn [Attachment.base Attachment.vertices Attachment.worldVerticesLength
           Attachment.deformAttachment].
      unfold Store.readFloats. store_simpl.
      rewrite copyFloats_run'.
      repeat (progress (store_simpl; rewrite ?Hs)).
      reflexivity.
Qed.

Lemma fresh_lookup {V} (m : gmap loc V) : m !! fresh (dom m) = None.
Proof. apply not_elem_of_dom. apply is_fresh. Qed.

Lemma fresh_ne {V} (m : gmap loc V) (p : loc) (x : V) :
  m !! p = Some x -> p <> fresh (dom m).
Proof. intros H E. rewrite E, fresh_lookup in H. discriminate. Qed.

Lemma BoundingBox_copy_run (f : gmap loc (list float)) (i : gmap loc (list Z))
    (a : gmap loc Attachment.t) (n : Z) (this : loc) (s : Attachment.t)
    (color : Color.t) :
  a !! this = Some s ->
  Attachment.ext s = Attachment.BoundingBox color ->
  exists st' c,
    BoundingBoxAttachment.copy this (Store.mk f i a n)
    = (JS.Normal (fresh (dom a)), st')
    /\ Store.attachments st' = <[fresh (dom a) := c]> a
    /\ Attachment.ext c = Attachment.BoundingBox color
    /\ Attachment.name (Attachment.base c) = Attachment.name (Attachment.base s)
    /\ Attachment.deformAttachment (Attachment.base c)
       = Attachment.deformAttachment (Attachment.base s).
Proof.
  intros Hs He.
  pose proof (fresh_ne a this s Hs) as Hne.
  unfold BoundingBoxAttachment.copy, mbind, store_bind, Store.bind.
  rewrite (attachment_run (Store.mk f i a n) this s Hs). rewrite He.
  unfold BoundingBoxAttachment.new, mbind, store_bind, Store.bind,
    VertexAttachment.allocate, VertexAttachment.construct,
    VertexAttachment.takeID, VertexAttachment.install, Store.newFloats,
    mbind, store_bind, Store.bind, mret, store_ret, Store.ret.
  store_simpl.
  erewrite copyTo_run;
    [| rewrite lookup_insert_ne by congruence; exact Hs
     | apply lookup_insert_eq ].
  unfold Store.update. store_simpl.
  eexists _, _. split; [reflexivity|]. store_simpl.
  split; [reflexivity|].
  destruct color. repeat split; reflexivity.
Qed.

Lemma Clipping_copy_run (f : gmap loc (list float)) (i : gmap loc (list Z))
    (a : gmap loc Attachment.t) (n : Z) (this : loc) (s : Attachment.t)
    (endSlot : option SlotData.t) (color : Color.t) :
  a !! this = Some s ->
  Attachment.ext s = Attachment.Clipping endSlot color ->
  exists st' c,
    ClippingAttachment.copy this (Store.mk f i a n)
    = (JS.Normal (fresh (dom a)), st')
    /\ Store.attachments st' = <[fresh (dom a) := c]> a
    /\ Attachment.ext c = Attachment.Clipping endSlot color
    /\ Attachment.name (Attachment.base c) = Attachment.name (Attachment.base s)
    /\ Attachment.deformAttachment (Attachment.base c)
       = Attachment.deformAttachment (Attachment.base s).
Proof.
  intros Hs He.
  pose proof (fresh_ne a this s Hs) as Hne.
  unfold ClippingAttachment.copy, mbind, store_bind, Store.bind.
  rewrite (attachment_run (Store.mk f i a n) this s Hs). rewrite He.
  unfold ClippingAttachment.new, mbind, store_bind, Store.bind,
    VertexAttachment.allocate, VertexAttachment.construct,
    VertexAttachment.takeID, VertexAttachment.install, Store.newFloats,
    mbind, store_bind, Store.bind, mret, store_ret, Store.ret.
  store_simpl.
  erewrite copyTo_run;
    [| rewrite lookup_insert_ne by congruence; exact Hs
     | apply lookup_insert_eq ].
  unfold Store.update. store_simpl.
  eexists _, _. split; [reflexivity|]. store_simpl.
  split; [reflexivity|].
  destruct color. repeat split; reflexivity.
Qed.

(** [updateUVs] on a mesh with a region returns; it assigns at most
    [this.uvs], and writes into that array only. *)
Lemma updateUVs_returns (st : Store.t) (this : loc) (a : Attachment.t)
    (m : Attachment.mesh) (region : TextureRegion.t)
    (regionValues values : list float) :
  Store.attachments st !! this = Some a ->
  Attachment.ext a = Attachment.Mesh m ->
  Attachment.region m = Some region ->
  Store.floats st !! Attachment.regionUVs m = Some regionValues ->
  Store.floats st !! Attachment.uvs m = Some values ->
  Attachment.uvs m <> Attachment.regionUVs m ->
  exists st' uvs,
    MeshAttachment.updateUVs this st = (JS.Normal tt, st')
    /\ Store.attachments st'
       = <[this := Attachment.mk (Attachment.base a)
                     (Attachment.Mesh (Attachment.set_uvs uvs m))]>
           (Store.attachments st)
    /\ Store.ints st' = Store.ints st
    /\ Store.nextID st' = Store.nextID st
    /\ (forall p x, Store.floats st !! p = Some x -> p <> uvs ->
          Store.floats st' !! p = Some x)
    /\ (uvs = Attachment.uvs m \/ Store.floats st !! uvs = None).
Proof.
  intros Ha Hm Hreg Hr Hu Hd.
  destruct (ensureUVs_spec st this a m regionValues values Ha Hm Hr Hu Hd)
    as (uvs & st1 & m1 & values1 & He & Hu1 & Hlen & Hr1 & Hd1 & Ha1 & Hm1
        & Hru1 & Hset & Hatt & Hints & Hnext & Hframe & Hnew).
  assert (Hrun : forall first second,
    exists st',
      MeshAttachment.uvLoop uvs (Attachment.regionUVs m)
        (Z.of_nat (length values1)) first second st1 = (JS.Normal tt, st')
      /\ Store.attachments st' = Store.attachments st1
      /\ Store.ints st' = Store.ints st1
      /\ Store.nextID st' = Store.nextID st1
      /\ forall p x, Store.floats st1 !! p = Some x -> p <> uvs ->
           Store.floats st' !! p = Some x).
  { intros first second.
    destruct (uvLoop_spec first second regionValues values1 st1 uvs
                (Attachment.regionUVs m) Hd1 Hr1 Hu1) as (values' & Hloop & _).
    exists (withFloats st1 uvs values'). split; [exact Hloop|].
    repeat split; try reflexivity.
    intros p x Hp Hne. unfold withFloats. cbn [Store.floats].
    rewrite lookup_insert_ne by congruence. exact Hp. }
  unfold MeshAttachment.updateUVs.
  unfold mbind, store_bind, Store.bind in *.
  rewrite (mesh_lookup st this a m Ha Hm). rewrite Hreg, He.
  unfold VertexAttachment.floatsOf, Store.readFloats. rewrite Hu1.
  cbn [default].
  destruct (TextureRegion.atlas region) as [page|];
    [destruct (TextureRegion.degrees page =? 90);
     [|destruct (TextureRegion.degrees page =? 180);
       [|destruct (TextureRegion.degrees page =? 270)]]|];
    match goal with
    | |- context [MeshAttachment.uvLoop _ _ _ ?f ?s st1] =>
        destruct (Hrun f s) as (st' & Hloop & Ha' & Hi' & Hn' & Hf')
    end;
    exists st', uvs;
    (split; [exact Hloop|]);
    rewrite Ha', Hi', Hn', Hatt, Hset;
    repeat split; auto.
Qed.

Lemma MeshAttachment_new_run (f : gmap loc (list float)) (i : gmap loc (list Z))
    (a : gmap loc Attachment.t) (n : Z) (name path : string) :
  let vertices := fresh (dom f) in
  let f1 := <[vertices := []]> f in
  let regionUVs := fresh (dom f1) in
  let f2 := <[regionUVs := []]> f1 in
  let uvs := fresh (dom f2) in
  let triangles := fresh (dom i) in
  let i1 := <[triangles := []]> i in
  let edges := fresh (dom i1) in
  let this := fresh (dom a) in
  MeshAttachment.new (Some name) path (Store.mk f i a n)
  = (JS.Normal this,
     Store.mk (<[uvs := []]> f2) (<[edges := []]> i1)
       (<[this :=
            Attachment.mk
              (Attachment.mkVertex name (VertexAttachment.idOf n) None vertices 0
                 (Some this))
              (Attachment.Mesh
                 (Attachment.mkMesh None path regionUVs uvs triangles
                    (Color.mk 1 1 1 1) 0%float 0%float 0 edges None
                    (Color.mk 0 0 0 0)))]> a)
       (n + 1)).
Proof. reflexivity. Qed.

(** [setParentMesh(parent)] for two distinct meshes of the store. *)
Lemma setParentMesh_run (f : gmap loc (list float)) (i : gmap loc (list Z))
    (a : gmap loc Attachment.t) (n : Z) (this parent : loc)
    (b pb : Attachment.vertex) (m pm : Attachment.mesh) :
  this <> parent ->
  a !! this = Some (Attachment.mk b (Attachment.Mesh m)) ->
  a !! parent = Some (Attachment.mk pb (Attachment.Mesh pm)) ->
  MeshAttachment.setParentMesh this (Some parent) (Store.mk f i a n)
  = (JS.Normal tt,
     Store.mk f i
       (<[this :=
            Attachment.mk
              (Attachment.mkVertex (Attachment.name b) (Attachment.id b)
                 (Attachment.bones pb) (Attachment.vertices pb)
                 (Attachment.worldVerticesLength pb)
                 (Attachment.deformAttachment b))
              (Attachment.Mesh
                 (Attachment.set_hullLength (Attachment.hullLength pm)
                    (Attachment.set_triangles (Attachment.triangles pm)
                       (Attachment.set_regionUVs (Attachment.regionUVs pm)
                          (Attachment.set_parentMesh (Some parent) m)))))]> a)
       n).
Proof.
  intros Hne Ht Hp.
  unfold MeshAttachment.setParentMesh, MeshAttachment.mesh, mbind, store_bind,
    Store.bind, Store.update, Store.attachment, mret, store_ret, Store.ret.
  store_simpl. rewrite Ht. store_simpl. rewrite Hp.
  cbn [Attachment.ext]. store_simpl. reflexivity.
Qed.

Lemma lookup_insert_fresh {V} (m : gmap loc V) (p : loc) (x y : V) :
  m !! p = Some x -> <[fresh (dom m) := y]> m !! p = Some x.
Proof.
  intros H. rewrite lookup_insert_ne; [exact H|].
  intros E. rewrite <- E, fresh_lookup in H. discriminate.
Qed.

(** Lookups after allocations: a new array is found where it was put, and
    stays there through later allocations. *)
Ltac held :=
  repeat first
    [ assumption
    | apply lookup_insert_eq
    | apply lookup_insert_fresh ].

(** Field assignments on explicit attachment records. *)
Ltac fields :=
  unfold Attachment.with_mesh, Attachment.with_bones, Attachment.with_vertices,
    Attachment.with_worldVerticesLength, Attachment.with_deformAttachment,
    Attachment.set_region, Attachment.set_regionUVs, Attachment.set_uvs,
    Attachment.set_triangles, Attachment.set_color, Attachment.set_width,
    Attachment.set_height, Attachment.set_hullLength, Attachment.set_edges,
    Attachment.set_parentMesh;
  cbn [Attachment.ext Attachment.base Attachment.name Attachment.id
       Attachment.bones Attachment.vertices Attachment.worldVerticesLength
       Attachment.deformAttachment Attachment.region Attachment.path
       Attachment.regionUVs Attachment.uvs Attachment.triangles
       Attachment.color Attachment.width Attachment.height
       Attachment.hullLength Attachment.edges Attachment.parentMesh
       Attachment.tempColor].

(** [newLinkedMesh] on a mesh with a region: the new mesh is linked to the
    parent of [this] if it has one, else to [this], and holds the parent's
    arrays. *)
Lemma newLinkedMesh_run (f : gmap loc (list float)) (i : gmap loc (list Z))
    (a : gmap loc Attachment.t) (n : Z) (this parent : loc)
    (b pb : Attachment.vertex) (m pm : Attachment.mesh)
    (region : TextureRegion.t) (regionValues : list float) :
  a !! this = Some (Attachment.mk b (Attachment.Mesh m)) ->
  Attachment.region m = Some region ->
  parent = match Attachment.parentMesh m with Some p => p | None => this end ->
  a !! parent = Some (Attachment.mk pb (Attachment.Mesh pm)) ->
  f !! Attachment.regionUVs pm = Some regionValues ->
  exists st' uvs edges,
    MeshAttachment.newLinkedMesh this (Store.mk f i a n)
    = (JS.Normal (fresh (dom a)), st')
    /\ Store.attachments st'
       = <[fresh (dom a) :=
             Attachment.mk
               (Attachment.mkVertex (Attachment.name b) (VertexAttachment.idOf n)
                  (Attachment.bones pb) (Attachment.vertices pb)
                  (Attachment.worldVerticesLength pb)
                  (Attachment.deformAttachment b))
               (Attachment.Mesh
                  (Attachment.mkMesh (Some region) (Attachment.path m)
                     (Attachment.regionUVs pm) uvs (Attachment.triangles pm)
                     (Attachment.color m) 0%float 0%float
                     (Attachment.hullLength pm) edges (Some parent)
                     (Color.mk 0 0 0 0)))]> a
    /\ Store.nextID st' = n + 1
    /\ f !! uvs = None
    /\ (forall p x, f !! p = Some x -> Store.floats st' !! p = Some x)
    /\ (forall p x, i !! p = Some x -> Store.ints st' !! p = Some x).
Proof.
  intros Ht Hreg Hparent Hp Hr.
  pose proof (fresh_ne a this _ Ht) as Hne.
  pose proof (fresh_ne a parent _ Hp) as Hnep.
  unfold MeshAttachment.newLinkedMesh, mbind, store_bind, Store.bind.
  rewrite (mesh_lookup (Store.mk f i a n) this _ m Ht eq_refl).
  cbn [Attachment.base].
  pose proof (MeshAttachment_new_run f i a n (Attachment.name b)
                (Attachment.path m)) as Hnew.
  cbv zeta in Hnew. rewrite Hnew. clear Hnew.
  unfold Store.update. store_simpl. fields.
  replace (match Attachment.parentMesh m with
           | Some parent0 => Some parent0
           | None => Some this
           end) with (Some parent)
    by (rewrite Hparent; destruct (Attachment.parentMesh m); reflexivity).
  erewrite (setParentMesh_run _ _ _ _ (fresh (dom a)) parent);
    [ | congruence
      | apply lookup_insert_eq
      | rewrite lookup_insert_ne by congruence; exact Hp ].
  store_simpl. fields.
  match goal with
  | |- context [MeshAttachment.updateUVs ?c ?st] =>
      destruct (updateUVs_returns st c _ _ region regionValues []
                  ltac:(cbn [Store.attachments]; apply lookup_insert_eq)
                  eq_refl Hreg
                  ltac:(cbn [Store.floats Attachment.regionUVs]; held)
                  ltac:(cbn [Store.floats Attachment.uvs]; held))
        as (st' & uvs & Hu & Ha' & Hi' & Hn' & Hf' & Hnew)
  end.
  { cbn [Attachment.uvs Attachment.regionUVs]. intros E.
    assert (Hh : <[fresh (dom f) := []]> f !! Attachment.regionUVs pm
                 = Some regionValues) by held.
    assert (Hh2 : <[fresh (dom (<[fresh (dom f) := []]> f)) := []]>
                    (<[fresh (dom f) := []]> f) !! Attachment.regionUVs pm
                  = Some regionValues) by held.
    rewrite <- E, fresh_lookup in Hh2. discriminate. }
  rewrite Hu. cbn [mret store_ret Store.ret].
  exists st', uvs, (fresh (dom (<[fresh (dom i) := []]> i))).
  split; [reflexivity|].
  rewrite Ha', Hi', Hn'. store_simpl. fields.
  assert (Hcolor : Color.setFromColor (Color.mk 1 1 1 1) (Attachment.color m)
                   = Attachment.color m)
    by (destruct (Attachment.color m); reflexivity).
  rewrite Hcolor, Hreg.
  split; [reflexivity|]. split; [reflexivity|].
  assert (Huvs : f !! uvs = None).
  { destruct (f !! uvs) as [x|] eqn:Hx; [exfalso|reflexivity].
    revert Hnew. fields. cbn [Store.floats]. intros [E|E].
    - assert (Hh : <[fresh (dom (<[fresh (dom f) := []]> f)) := []]>
                     (<[fresh (dom f) := []]> f) !! uvs = Some x) by held.
      rewrite E, fresh_lookup in Hh. discriminate.
    - assert (Hh : <[fresh (dom (<[fresh (dom (<[fresh (dom f) := []]> f)) := []]>
                                   (<[fresh (dom f) := []]> f))) := []]>
                     (<[fresh (dom (<[fresh (dom f) := []]> f)) := []]>
                        (<[fresh (dom f) := []]> f)) !! uvs = Some x) by held.
      rewrite E in Hh. discriminate. }
  split; [exact Huvs|]. split.
  - intros p x Hpx. apply Hf'.
    + cbn [Store.floats]. held.
    + intros ->. rewrite Huvs in Hpx. discriminate.
  - intros p x Hpx. held.
Qed.

Lemma fresh_not_before {V} (m g : gmap loc V) :
  (forall p x, m !! p = Some x -> g !! p = Some x) ->
  m !! fresh (dom g) = None.
Proof.
  intros H. destruct (m !! fresh (dom g)) as [x|] eqn:E; [|reflexivity].
  apply H in E. rewrite fresh_lookup in E. discriminate.
Qed.

(** Specifications of the allocating steps, relative to the store they
    start from. *)
Lemma cloneFloats_spec (st : Store.t) (source : loc) (l : list float) :
  Store.floats st !! source = Some l ->
  exists p st',
    VertexAttachment.cloneFloats source st = (JS.Normal p, st')
    /\ Store.floats st !! p = None
    /\ Store.floats st' = <[p := l]> (Store.floats st)
    /\ Store.ints st' = Store.ints st
    /\ Store.attachments st' = Store.attachments st
    /\ Store.nextID st' = Store.nextID st.
Proof.
  intros H. eexists _, _. split; [apply cloneFloats_run|].
  cbn [Store.floats Store.ints Store.attachments Store.nextID].
  unfold Store.readFloats. rewrite H.
  split; [apply fresh_lookup|]. repeat split; reflexivity.
Qed.

Lemma cloneInts_spec (st : Store.t) (source : loc) (l : list Z) :
  Store.ints st !! source = Some l ->
  exists p st',
    VertexAttachment.cloneInts source st = (JS.Normal p, st')
    /\ Store.ints st !! p = None
    /\ Store.ints st' = <[p := l]> (Store.ints st)
    /\ Store.floats st' = Store.floats st
    /\ Store.attachments st' = Store.attachments st
    /\ Store.nextID st' = Store.nextID st.
Proof.
  intros H. eexists _, _. split; [apply cloneInts_run|].
  cbn [Store.floats Store.ints Store.attachments Store.nextID].
  unfold Store.readInts. rewrite H.
  split; [apply fresh_lookup|]. repeat split; reflexivity.
Qed.

Lemma copyTo_spec (st : Store.t) (this d : loc) (s dd : Attachment.t)
    (lv : list float) :
  Store.attachments st !! this = Some s ->
  Store.attachments st !! d = Some dd ->
  Store.floats st !! Attachment.vertices (Attachment.base s) = Some lv ->
  (forall bl, Attachment.bones (Attachment.base s) = Some bl ->
     is_Some (Store.ints st !! bl)) ->
  exists st' v nb,
    VertexAttachment.copyTo this d st = (JS.Normal tt, st')
    /\ Store.attachments st' = <[d := copiedBase s dd nb v]> (Store.attachments st)
    /\ Store.nextID st' = Store.nextID st
    /\ Store.floats st !! v = None
    /\ Store.floats st' = <[v := lv]> (Store.floats st)
    /\ match Attachment.bones (Attachment.base s) with
       | None => nb = None /\ Store.ints st' = Store.ints st
       | Some bl =>
           exists q lb, nb = Some q
             /\ Store.ints st !! bl = Some lb
             /\ Store.ints st !! q = None
             /\ Store.ints st' = <[q := lb]> (Store.ints st)
       end.
Proof.
  intros Hs Hd Hv Hb. destruct st as [f i a n].
  cbn [Store.floats Store.ints Store.attachments Store.nextID] in *.
  eexists _, (fresh (dom f)),
    (match Attachment.bones (Attachment.base s) with
     | Some _ => Some (fresh (dom i))
     | None => None
     end).
  split; [apply (copyTo_run f i a n this d s dd Hs Hd)|].
  cbn [Store.floats Store.ints Store.attachments Store.nextID].
  rewrite Hv. cbn [default from_option id].
  split; [reflexivity|]. split; [reflexivity|].
  split; [apply fresh_lookup|]. split; [reflexivity|].
  destruct (Attachment.bones (Attachment.base s)) as [bl|].
  - destruct (Hb bl eq_refl) as [lb Hlb].
    exists (fresh (dom i)), lb. rewrite Hlb.
    split; [reflexivity|]. split; [reflexivity|].
    split; [apply fresh_lookup|reflexivity].
  - split; reflexivity.
Qed.

Lemma MeshAttachment_new_spec (st : Store.t) (name path : string) :
  exists st' vertices regionUVs uvs triangles edges,
    MeshAttachment.new (Some name) path st
    = (JS.Normal (fresh (dom (Store.attachments st))), st')
    /\ Store.attachments st'
       = <[fresh (dom (Store.attachments st)) :=
             Attachment.mk
               (Attachment.mkVertex name (VertexAttachment.idOf (Store.nextID st))
                  None vertices 0 (Some (fresh (dom (Store.attachments st)))))
               (Attachment.Mesh
                  (Attachment.mkMesh None path regionUVs uvs triangles
                     (Color.mk 1 1 1 1) 0%float 0%float 0 edges None
                     (Color.mk 0 0 0 0)))]> (Store.attachments st)
    /\ Store.nextID st' = Store.nextID st + 1
    /\ (forall p x, Store.floats st !! p = Some x -> Store.floats st' !! p = Some x)
    /\ (forall p x, Store.ints st !! p = Some x -> Store.ints st' !! p = Some x)
    /\ Store.floats st !! uvs = None
    /\ Store.floats st' !! uvs = Some []
    /\ (forall p x, Store.floats st !! p = Some x -> p <> uvs).
Proof.
  destruct st as [f i a n].
  pose proof (MeshAttachment_new_run f i a n name path) as Hnew.
  cbv zeta in Hnew.
  eexists _, _, _, _, _, _. split; [exact Hnew|].
  cbn [Store.floats Store.ints Store.attachments Store.nextID].
  split; [reflexivity|]. split; [reflexivity|].
  split; [intros p x Hp; held|]. split; [intros p x Hp; held|].
  assert (Hfresh : f !! fresh (dom (<[fresh (dom (<[fresh (dom f) := []]> f)) := []]>
                                      (<[fresh (dom f) := []]> f))) = None)
    by (apply fresh_not_before; intros p x Hp; held).
  split; [exact Hfresh|]. split; [apply lookup_insert_eq|].
  intros p x Hp ->. rewrite Hfresh in Hp. discriminate.
Qed.

Lemma keeps_insert_fresh {V} (m g : gmap loc V) (q : loc) (y : V) :
  (forall p x, m !! p = Some x -> g !! p = Some x) ->
  g !! q = None ->
  forall p x, m !! p = Some x -> <[q := y]> g !! p = Some x.
Proof.
  intros Hk Hq p x Hp. rewrite lookup_insert_ne; [apply Hk; exact Hp|].
  intros <-. apply Hk in Hp. congruence.
Qed.

Lemma not_held_before {V} (m g : gmap loc V) (q : loc) :
  (forall p x, m !! p = Some x -> g !! p = Some x) ->
  g !! q = None -> m !! q = None.
Proof.
  intros Hk Hq. destruct (m !! q) as [x|] eqn:E; [|reflexivity].
  apply Hk in E. congruence.
Qed.

(** What a deep copy of a mesh is, in terms of the store [st] before and
    [st'] after: the copy [(cb, cm)] of [(b, m)] holds arrays that [st] did
    not hold, pairwise distinct, with the contents of the source's arrays
    ([bones] only if the source has bones); every array of [st] is unchanged
    in [st']; the other fields are those of the source, and the copy has no
    parent. *)
Definition deepCopy (st st' : Store.t) (b cb : Attachment.vertex)
    (m cm : Attachment.mesh) (lv lru luv : list float) (ltr led : list Z)
    : Prop :=
  (Store.floats st !! Attachment.vertices cb = None
   /\ Store.floats st !! Attachment.regionUVs cm = None
   /\ Store.floats st !! Attachment.uvs cm = None
   /\ Store.ints st !! Attachment.triangles cm = None
   /\ Store.ints st !! Attachment.edges cm = None)
  /\ (Store.floats st' !! Attachment.vertices cb = Some lv
      /\ Store.floats st' !! Attachment.regionUVs cm = Some lru
      /\ Store.floats st' !! Attachment.uvs cm = Some luv
      /\ Store.ints st' !! Attachment.triangles cm = Some ltr
      /\ Store.ints st' !! Attachment.edges cm = Some led)
  /\ (Attachment.vertices cb <> Attachment.regionUVs cm
      /\ Attachment.vertices cb <> Attachment.uvs cm
      /\ Attachment.regionUVs cm <> Attachment.uvs cm
      /\ Attachment.triangles cm <> Attachment.edges cm)
  /\ match Attachment.bones b with
     | None => Attachment.bones cb = None
     | Some bl =>
         exists nb, Attachment.bones cb = Some nb
           /\ Store.ints st !! nb = None
           /\ Store.ints st' !! nb = Store.ints st !! bl
           /\ nb <> Attachment.triangles cm
           /\ nb <> Attachment.edges cm
     end
  /\ (forall p x, Store.floats st !! p = Some x -> Store.floats st' !! p = Some x)
  /\ (forall p x, Store.ints st !! p = Some x -> Store.ints st' !! p = Some x)
  /\ (Attachment.parentMesh cm = None
      /\ Attachment.region cm = Attachment.region m
      /\ Attachment.path cm = Attachment.path m
      /\ Attachment.color cm = Attachment.color m
      /\ Attachment.hullLength cm = Attachment.hullLength m
      /\ Attachment.width cm = Attachment.width m
      /\ Attachment.height cm = Attachment.height m
      /\ Attachment.name cb = Attachment.name b
      /\ Attachment.worldVerticesLength cb = Attachment.worldVerticesLength b
      /\ Attachment.deformAttachment cb = Attachment.deformAttachment b).

(** [copy] on a mesh with no parent, whose arrays are arrays of the store. *)
Lemma Mesh_copy_spec (st : Store.t) (this : loc)
    (b : Attachment.vertex) (m : Attachment.mesh)
    (lv lru luv : list float) (ltr led : list Z) :
  Store.attachments st !! this = Some (Attachment.mk b (Attachment.Mesh m)) ->
  Attachment.parentMesh m = None ->
  Store.floats st !! Attachment.vertices b = Some lv ->
  Store.floats st !! Attachment.regionUVs m = Some lru ->
  Store.floats st !! Attachment.uvs m = Some luv ->
  Store.ints st !! Attachment.triangles m = Some ltr ->
  Store.ints st !! Attachment.edges m = Some led ->
  (forall bl, Attachment.bones b = Some bl -> is_Some (Store.ints st !! bl)) ->
  exists st' cb cm,
    MeshAttachment.copy this st
    = (JS.Normal (fresh (dom (Store.attachments st))), st')
    /\ Store.attachments st'
       = <[fresh (dom (Store.attachments st))
           := Attachment.mk cb (Attachment.Mesh cm)]> (Store.attachments st)
    /\ deepCopy st st' b cb m cm lv lru luv ltr led.
Proof.
  intros Ht Hpar Hv Hru Huv Htr Hed Hbones.
  pose proof (fresh_ne _ this _ Ht) as Hne.
  set (c := fresh (dom (Store.attachments st))) in *.
  unfold MeshAttachment.copy, mbind, store_bind, Store.bind.
  rewrite (mesh_lookup st this _ m Ht eq_refl).
  cbn [Attachment.base]. rewrite Hpar.
  destruct (MeshAttachment_new_spec st (Attachment.name b) (Attachment.path m))
    as (st1 & v0 & ru0 & uv0 & tr0 & ed0 & Hnew & Ha1 & Hn1 & Hkf1 & Hki1 & _).
  fold c in Hnew, Ha1. rewrite Hnew.
  destruct st1 as [f1 i1 a1 n1].
  cbn [Store.floats Store.ints Store.attachments Store.nextID] in *.
  subst a1.
  unfold Store.update. store_simpl. fields.
  (* copyTo *)
  match goal with
  | |- context [VertexAttachment.copyTo this c ?s2] =>
      destruct (copyTo_spec s2 this c _ _ lv
                  ltac:(cbn [Store.attachments];
                        rewrite lookup_insert_ne by congruence; exact Ht)
                  ltac:(cbn [Store.attachments]; apply lookup_insert_eq)
                  ltac:(cbn [Store.floats Attachment.base]; apply Hkf1; exact Hv))
        as (st3 & v1 & nb & Hcopy & Ha3 & Hn3 & Hv1 & Hf3 & Hb3)
  end.
  { cbn [Store.ints Attachment.base]. intros bl Hbl.
    destruct (Hbones bl Hbl) as [lb Hlb]. exists lb. apply Hki1. exact Hlb. }
  rewrite Hcopy. clear Hcopy.
  destruct st3 as [f3 i3 a3 n3].
  cbn [Store.floats Store.ints Store.attachments Store.nextID Attachment.base
       Attachment.bones] in *.
  subst a3 n3. rewrite insert_insert_eq.
  assert (Hk3 : forall p x, Store.floats st !! p = Some x -> f3 !! p = Some x)
    by (subst f3; apply keeps_insert_fresh; assumption).
  (* regionUVs *)
  destruct (cloneFloats_spec (Store.mk f3 i3
              (<[c := copiedBase (Attachment.mk b (Attachment.Mesh m))
                        (Attachment.mk
                           (Attachment.mkVertex (Attachment.name b)
                              (VertexAttachment.idOf (Store.nextID st)) None v0 0
                              (Some c))
                           (Attachment.Mesh
                              (Attachment.mkMesh (Attachment.region m)
                                 (Attachment.path m) ru0 uv0 tr0
                                 (Color.setFromColor (Color.mk 1 1 1 1)
                                    (Attachment.color m))
                                 0%float 0%float 0 ed0 None (Color.mk 0 0 0 0))))
                        nb v1]> (Store.attachments st)) n1)
              (Attachment.regionUVs m) lru (Hk3 _ _ Hru))
    as (ru1 & st4 & Hclone & Hru1 & Hf4 & Hi4 & Ha4 & Hn4).
  rewrite Hclone. clear Hclone.
  destruct st4 as [f4 i4 a4 n4].
  cbn [Store.floats Store.ints Store.attachments Store.nextID] in *.
  subst i4 a4 n4. store_simpl. unfold copiedBase. fields.
  assert (Hk4 : forall p x, Store.floats st !! p = Some x -> f4 !! p = Some x)
    by (subst f4; apply keeps_insert_fresh; assumption).
  (* uvs *)
  match goal with
  | |- context [VertexAttachment.cloneFloats (Attachment.uvs m) ?s5] =>
      destruct (cloneFloats_spec s5 (Attachment.uvs m) luv (Hk4 _ _ Huv))
        as (uv1 & st5 & Hclone & Huv1 & Hf5 & Hi5 & Ha5 & Hn5)
  end.
  rewrite Hclone. clear Hclone.
  destruct st5 as [f5 i5 a5 n5].
  cbn [Store.floats Store.ints Store.attachments Store.nextID] in *.
  subst i5 a5 n5. store_simpl. fields.
  assert (Hk5 : forall p x, Store.floats st !! p = Some x -> f5 !! p = Some x)
    by (subst f5; apply keeps_insert_fresh; assumption).
  (* what copyTo left of the index arrays *)
  assert (Hki3 : forall p x, Store.ints st !! p = Some x -> i3 !! p = Some x).
  { destruct (Attachment.bones b) as [bl|].
    - destruct Hb3 as (q & lb & _ & _ & Hq & ->).
      apply keeps_insert_fresh; assumption.
    - destruct Hb3 as [_ ->]. exact Hki1. }
  (* triangles *)
  match goal with
  | |- context [VertexAttachment.cloneInts (Attachment.triangles m) ?s6] =>
      destruct (cloneInts_spec s6 (Attachment.triangles m) ltr (Hki3 _ _ Htr))
        as (tr1 & st6 & Hclone & Htr1 & Hi6 & Hf6 & Ha6 & Hn6)
  end.
  rewrite Hclone. clear Hclone.
  destruct st6 as [f6 i6 a6 n6].
  cbn [Store.floats Store.ints Store.attachments Store.nextID] in *.
  subst f6 a6 n6. store_simpl. fields.
  assert (Hki6 : forall p x, Store.ints st !! p = Some x -> i6 !! p = Some x)
    by (subst i6; apply keeps_insert_fresh; assumption).
  (* edges *)
  match goal with
  | |- context [VertexAttachment.cloneInts (Attachment.edges m) ?s7] =>
      destruct (cloneInts_spec s7 (Attachment.edges m) led (Hki6 _ _ Hed))
        as (ed1 & st7 & Hclone & Hed1 & Hi7 & Hf7 & Ha7 & Hn7)
  end.
  rewrite Hclone. clear Hclone.
  destruct st7 as [f7 i7 a7 n7].
  cbn [Store.floats Store.ints Store.attachments Store.nextID] in *.
  subst f7 a7 n7. store_simpl. fields.
  cbn [mret store_ret Store.ret].
  eexists _, _, _. split; [reflexivity|].
  store_simpl. split; [reflexivity|]. unfold deepCopy.
  cbn [Store.floats Store.ints Store.attachments Store.nextID]. fields.
  subst f3 f4 f5 i6 i7.
  apply lookup_insert_None in Hru1 as [Hru1 Hv_ru].
  apply lookup_insert_None in Huv1 as [Huv1 Hru_uv].
  apply lookup_insert_None in Huv1 as [Huv1 Hv_uv].
  apply lookup_insert_None in Hed1 as [Hed1 Htr_ed].
  split.
  { repeat split.
    - exact (not_held_before _ f1 v1 Hkf1 Hv1).
    - exact (not_held_before _ f1 ru1 Hkf1 Hru1).
    - exact (not_held_before _ f1 uv1 Hkf1 Huv1).
    - exact (not_held_before _ i3 tr1 Hki3 Htr1).
    - exact (not_held_before _ i3 ed1 Hki3 Hed1). }
  split.
  { repeat split.
    - rewrite !lookup_insert_ne by congruence. apply lookup_insert_eq.
    - rewrite lookup_insert_ne by congruence. apply lookup_insert_eq.
    - apply lookup_insert_eq.
    - rewrite lookup_insert_ne by congruence. apply lookup_insert_eq.
    - apply lookup_insert_eq. }
  split; [repeat split; assumption|].
  split.
  { destruct (Attachment.bones b) as [bl|] eqn:Hbl.
    - destruct Hb3 as (q & lb & -> & Hlb & Hq & ->).
      apply lookup_insert_None in Htr1 as [Htr1 Hq_tr].
      apply lookup_insert_None in Hed1 as [Hed1 Hq_ed].
      exists q. split; [reflexivity|].
      split; [exact (not_held_before _ i1 q Hki1 Hq)|].
      destruct (Hbones bl eq_refl) as [lb0 Hlb0].
      rewrite Hlb0. apply Hki1 in Hlb0.
      rewrite !lookup_insert_ne by congruence.
      rewrite lookup_insert_eq.
      repeat split; congruence.
    - destruct Hb3 as [-> _]. reflexivity. }
  split; [exact Hk5|].
  split.
  { intros p x Hp.
    rewrite !lookup_insert_ne by (intros <-; apply Hki3 in Hp; congruence).
    apply Hki3. exact Hp. }
  destruct (Attachment.color m). repeat split; reflexivity.
Qed.

(** [setParentMesh(parent)] on a mesh that is its own parent. *)
Lemma setParentMesh_self (f : gmap loc (list float)) (i : gmap loc (list Z))
    (a : gmap loc Attachment.t) (n : Z) (this : loc)
    (b : Attachment.vertex) (m : Attachment.mesh) :
  a !! this = Some (Attachment.mk b (Attachment.Mesh m)) ->
  MeshAttachment.setParentMesh this (Some this) (Store.mk f i a n)
  = (JS.Normal tt,
     Store.mk f i
       (<[this :=
            Attachment.mk b
              (Attachment.Mesh (Attachment.set_parentMesh (Some this) m))]> a)
       n).
Proof.
  intros Ht. destruct b, m.
  unfold MeshAttachment.setParentMesh, MeshAttachment.mesh, mbind, store_bind,
    Store.bind, Store.update, Store.attachment, mret, store_ret, Store.ret.
  store_simpl. rewrite Ht.
  repeat (progress (store_simpl; fields)).
  reflexivity.
Qed.

(** The fields a linked mesh shares with its parent: the same [bones],
    [vertices], [regionUVs] and [triangles] arrays (the same references),
    and equal [hullLength] and [worldVerticesLength]. *)
Definition sharesWith (b pb : Attachment.vertex) (m pm : Attachment.mesh) : Prop :=
  Attachment.bones b = Attachment.bones pb
  /\ Attachment.vertices b = Attachment.vertices pb
  /\ Attachment.regionUVs m = Attachment.regionUVs pm
  /\ Attachment.triangles m = Attachment.triangles pm
  /\ Attachment.hullLength m = Attachment.hullLength pm
  /\ Attachment.worldVerticesLength b = Attachment.worldVerticesLength pb.

Lemma setParentMesh_spec (st : Store.t) (this parent : loc)
    (b pb : Attachment.vertex) (m pm : Attachment.mesh) :
  Store.attachments st !! this = Some (Attachment.mk b (Attachment.Mesh m)) ->
  Store.attachments st !! parent = Some (Attachment.mk pb (Attachment.Mesh pm)) ->
  exists st' b' m' pb' pm',
    MeshAttachment.setParentMesh this (Some parent) st = (JS.Normal tt, st')
    /\ Store.attachments st' !! this = Some (Attachment.mk b' (Attachment.Mesh m'))
    /\ Store.attachments st' !! parent
       = Some (Attachment.mk pb' (Attachment.Mesh pm'))
    /\ Attachment.parentMesh m' = Some parent
    /\ sharesWith b' pb' m' pm'
    /\ sharesWith pb' pb pm' pm
    /\ Store.floats st' = Store.floats st
    /\ Store.ints st' = Store.ints st.
Proof.
  intros Ht Hp. destruct st as [f i a n].
  cbn [Store.floats Store.ints Store.attachments Store.nextID] in *.
  destruct (decide (this = parent)) as [->|Hne].
  - assert (pb = b /\ pm = m) as [-> ->] by (split; congruence).
    rewrite (setParentMesh_self f i a n parent b m Ht).
    eexists _, _, _, _, _. split; [reflexivity|].
    cbn [Store.floats Store.ints Store.attachments Store.nextID].
    rewrite lookup_insert_eq.
    split; [reflexivity|]. split; [reflexivity|].
    destruct m. unfold sharesWith. fields. repeat split; reflexivity.
  - rewrite (setParentMesh_run f i a n this parent b pb m pm Hne Ht Hp).
    eexists _, _, _, _, _. split; [reflexivity|].
    cbn [Store.floats Store.ints Store.attachments Store.nextID].
    rewrite lookup_insert_eq, lookup_insert_ne by congruence.
    split; [reflexivity|]. split; [exact Hp|].
    unfold sharesWith. fields. repeat split; reflexivity.
Qed.

(** [newLinkedMesh] on a mesh whose region is null: [updateUVs] on the new
    mesh throws. *)
Lemma newLinkedMesh_throws (f : gmap loc (list float)) (i : gmap loc (list Z))
    (a : gmap loc Attachment.t) (n : Z) (this parent : loc)
    (b pb : Attachment.vertex) (m pm : Attachment.mesh) :
  a !! this = Some (Attachment.mk b (Attachment.Mesh m)) ->
  Attachment.region m = None ->
  parent = match Attachment.parentMesh m with Some p => p | None => this end ->
  a !! parent = Some (Attachment.mk pb (Attachment.Mesh pm)) ->
  exists st',
    MeshAttachment.newLinkedMesh this (Store.mk f i a n)
    = (JS.Throw "Region not set.", st').
Proof.
  intros Ht Hreg Hparent Hp.
  pose proof (fresh_ne a this _ Ht) as Hne.
  pose proof (fresh_ne a parent _ Hp) as Hnep.
  unfold MeshAttachment.newLinkedMesh, mbind, store_bind, Store.bind.
  rewrite (mesh_lookup (Store.mk f i a n) this _ m Ht eq_refl).
  cbn [Attachment.base].
  pose proof (MeshAttachment_new_run f i a n (Attachment.name b)
                (Attachment.path m)) as Hnew.
  cbv zeta in Hnew. rewrite Hnew. clear Hnew.
  unfold Store.update. store_simpl. fields.
  replace (match Attachment.parentMesh m with
           | Some parent0 => Some parent0
           | None => Some this
           end) with (Some parent)
    by (rewrite Hparent; destruct (Attachment.parentMesh m); reflexivity).
  erewrite (setParentMesh_run _ _ _ _ (fresh (dom a)) parent);
    [ | congruence
      | apply lookup_insert_eq
      | rewrite lookup_insert_ne by congruence; exact Hp ].
  store_simpl. fields.
  unfold MeshAttachment.updateUVs, mbind, store_bind, Store.bind.
  erewrite mesh_lookup;
    [ | cbn [Store.attachments]; apply lookup_insert_eq | reflexivity ].
  fields. rewrite Hreg. eexists. reflexivity.
Qed.

(** ** Linked meshes *)

(** What C4 says of [copy] on a linked mesh: it returns, for every mesh
    with a parent. *)
Definition linked_copy_always_returns : Prop :=
  forall (st : Store.t) (this : loc) (b : Attachment.vertex) (m : Attachment.mesh),
    MeshAttachment.mesh this st = (JS.Normal (b, m), st) ->
    is_Some (Attachment.parentMesh m) ->
    exists copy st', MeshAttachment.copy this st = (JS.Normal copy, st').

(** Two new meshes, the second linked to the first; neither has a region. *)
Definition linkedWithoutRegion : Store.M (loc * loc) :=
  parent ← MeshAttachment.new (Some "parent") "images/parent";
  linked ← MeshAttachment.new (Some "linked") "images/linked";
  MeshAttachment.setParentMesh linked (Some parent);;
  mret (parent, linked).

(** C4, as stated, fails: [copy] on a linked mesh goes through
    [newLinkedMesh], which calls [updateUVs] on the new mesh, and that
    throws when the region is null. *)
Lemma linked_copy_needs_region : ~ linked_copy_always_returns.
Proof.
  intros H.
  set (st := (linkedWithoutRegion Store.empty).2).
  assert (Hmesh : exists b m,
            MeshAttachment.mesh 2%positive st = (JS.Normal (b, m), st)
            /\ Attachment.parentMesh m = Some 1%positive).
  { vm_compute. eexists _, _. split; reflexivity. }
  destruct Hmesh as (b & m & Hmesh & Hparent).
  destruct (H st 2%positive b m Hmesh (ex_intro _ _ Hparent))
    as (copy & st' & Hcopy).
  vm_compute in Hcopy. discriminate Hcopy.
Qed.

(** C4, amended.
    - [setParentMesh(parent)] with a non-null parent leaves the mesh linked
      to [parent], its [bones], [vertices], [regionUVs] and [triangles] the
      very arrays of the parent, its [hullLength] and [worldVerticesLength]
      equal to the parent's; no array is allocated.
    - [copy] on a linked mesh whose region is set returns a new mesh linked
      to the same parent and sharing the parent's arrays in the same way;
      the parent is untouched and none of its arrays is cloned. When the
      region is null, [copy] on a linked mesh throws "Region not set.".
    - [copy] on a mesh with no parent returns a new mesh with no parent
      whose [regionUVs], [uvs], [triangles], [vertices] and (if the source
      has any) [bones] are new arrays, distinct from every array held
      before and from each other, with the contents of the source's. *)
Theorem linked_mesh_sharing :
  (forall (st : Store.t) (this parent : loc) (b pb : Attachment.vertex)
          (m pm : Attachment.mesh),
     Store.attachments st !! this = Some (Attachment.mk b (Attachment.Mesh m)) ->
     Store.attachments st !! parent
       = Some (Attachment.mk pb (Attachment.Mesh pm)) ->
     exists st' b' m' pb' pm',
       MeshAttachment.setParentMesh this (Some parent) st = (JS.Normal tt, st')
       /\ Store.attachments st' !! this
          = Some (Attachment.mk b' (Attachment.Mesh m'))
       /\ Store.attachments st' !! parent
          = Some (Attachment.mk pb' (Attachment.Mesh pm'))
       /\ Attachment.parentMesh m' = Some parent
       /\ sharesWith b' pb' m' pm'
       /\ sharesWith pb' pb pm' pm
       /\ Store.floats st' = Store.floats st
       /\ Store.ints st' = Store.ints st)
  /\ (forall (st : Store.t) (this parent : loc) (b pb : Attachment.vertex)
             (m pm : Attachment.mesh) (region : TextureRegion.t)
             (regionValues : list float),
        Store.attachments st !! this = Some (Attachment.mk b (Attachment.Mesh m)) ->
        Attachment.parentMesh m = Some parent ->
        Attachment.region m = Some region ->
        Store.attachments st !! parent
          = Some (Attachment.mk pb (Attachment.Mesh pm)) ->
        Store.floats st !! Attachment.regionUVs pm = Some regionValues ->
        exists copy st' cb cm,
          MeshAttachment.copy this st = (JS.Normal copy, st')
          /\ Store.attachments st !! copy = None
          /\ Store.attachments st' !! copy
             = Some (Attachment.mk cb (Attachment.Mesh cm))
          /\ Attachment.parentMesh cm = Some parent
          /\ Store.attachments st' !! parent
             = Some (Attachment.mk pb (Attachment.Mesh pm))
          /\ sharesWith cb pb cm pm
          /\ (forall p x, Store.floats st !! p = Some x ->
                Store.floats st' !! p = Some x)
          /\ (forall p x, Store.ints st !! p = Some x ->
                Store.ints st' !! p = Some x))
  /\ (forall (st : Store.t) (this parent : loc) (b pb : Attachment.vertex)
             (m pm : Attachment.mesh),
        Store.attachments st !! this = Some (Attachment.mk b (Attachment.Mesh m)) ->
        Attachment.parentMesh m = Some parent ->
        Attachment.region m = None ->
        Store.attachments st !! parent
          = Some (Attachment.mk pb (Attachment.Mesh pm)) ->
        exists st', MeshAttachment.copy this st = (JS.Throw "Region not set.", st'))
  /\ (forall (st : Store.t) (this : loc) (b : Attachment.vertex)
             (m : Attachment.mesh) (lv lru luv : list float) (ltr led : list Z),
        Store.attachments st !! this = Some (Attachment.mk b (Attachment.Mesh m)) ->
        Attachment.parentMesh m = None ->
        Store.floats st !! Attachment.vertices b = Some lv ->
        Store.floats st !! Attachment.regionUVs m = Some lru ->
        Store.floats st !! Attachment.uvs m = Some luv ->
        Store.ints st !! Attachment.triangles m = Some ltr ->
        Store.ints st !! Attachment.edges m = Some led ->
        (forall bl, Attachment.bones b = Some bl -> is_Some (Store.ints st !! bl)) ->
        exists copy st' cb cm,
          MeshAttachment.copy this st = (JS.Normal copy, st')
          /\ Store.attachments st !! copy = None
          /\ Store.attachments st' !! copy
             = Some (Attachment.mk cb (Attachment.Mesh cm))
          /\ Store.attachments st' !! this
             = Some (Attachment.mk b (Attachment.Mesh m))
          /\ deepCopy st st' b cb m cm lv lru luv ltr led).
Proof.
  split; [|split; [|split]].
  - intros st this parent b pb m pm Ht Hp.
    apply (setParentMesh_spec st this parent b pb m pm Ht Hp).
  - intros st this parent b pb m pm region regionValues Ht Hpar Hreg Hp Hr.
    destruct st as [f i a n].
    cbn [Store.floats Store.ints Store.attachments Store.nextID] in *.
    destruct (newLinkedMesh_run f i a n this parent b pb m pm region
                regionValues Ht Hreg ltac:(rewrite Hpar; reflexivity) Hp Hr)
      as (st' & uvs & edges & Hrun & Ha' & Hn' & Hu & Hkf & Hki).
    eexists (fresh (dom a)), st', _, _.
    split.
    { unfold MeshAttachment.copy, mbind, store_bind, Store.bind.
      rewrite (mesh_lookup (Store.mk f i a n) this _ m Ht eq_refl).
      rewrite Hpar. exact Hrun. }
    split; [apply fresh_lookup|].
    rewrite Ha', lookup_insert_eq.
    split; [reflexivity|]. split; [reflexivity|].
    split.
    { rewrite lookup_insert_ne; [exact Hp|].
      apply not_eq_sym. eapply fresh_ne. exact Hp. }
    split; [unfold sharesWith; fields; repeat split; reflexivity|].
    split; assumption.
  - intros st this parent b pb m pm Ht Hpar Hreg Hp.
    destruct st as [f i a n].
    cbn [Store.floats Store.ints Store.attachments Store.nextID] in *.
    destruct (newLinkedMesh_throws f i a n this parent b pb m pm Ht Hreg
                ltac:(rewrite Hpar; reflexivity) Hp) as (st' & Hrun).
    exists st'.
    unfold MeshAttachment.copy, mbind, store_bind, Store.bind.
    rewrite (mesh_lookup (Store.mk f i a n) this _ m Ht eq_refl).
    rewrite Hpar. exact Hrun.
  - intros st this b m lv lru luv ltr led Ht Hpar Hv Hru Huv Htr Hed Hb.
    destruct (Mesh_copy_spec st this b m lv lru luv ltr led
                Ht Hpar Hv Hru Huv Htr Hed Hb)
      as (st' & cb & cm & Hrun & Ha' & Hdeep).
    exists (fresh (dom (Store.attachments st))), st', cb, cm.
    split; [exact Hrun|]. split; [apply fresh_lookup|].
    rewrite Ha', lookup_insert_eq. split; [reflexivity|].
    split; [|exact Hdeep].
    rewrite lookup_insert_ne; [exact Ht|].
    apply not_eq_sym. eapply fresh_ne. exact Ht.
Qed.

(** ** deformAttachment across copies *)

(** The copy [c] (a new object [copy]) of the source [s] (the object
    [this]) has the source's [deformAttachment]: the same reference. If
    that is the source itself, the copy's [deformAttachment] is the source,
    not the copy. *)
Definition sameDeformAttachment (this copy : loc) (s c : Attachment.vertex)
    : Prop :=
  copy <> this
  /\ Attachment.deformAttachment c = Attachment.deformAttachment s
  /\ (Attachment.deformAttachment s = Some this ->
      Attachment.deformAttachment c = Some this
      /\ Attachment.deformAttachment c <> Some copy).

Lemma sameDeformAttachment_intro (this copy : loc) (s c : Attachment.vertex) :
  copy <> this ->
  Attachment.deformAttachment c = Attachment.deformAttachment s ->
  sameDeformAttachment this copy s c.
Proof.
  intros Hne He. split; [exact Hne|]. split; [exact He|].
  intros Hs. rewrite He, Hs. split; [reflexivity|]. congruence.
Qed.

(** C10. [copyTo(d)] sets [d.deformAttachment] to the reference held by
    the source's [deformAttachment]. So does [copy()] of a bounding box, of
    a clipping attachment, of a mesh with no parent and of a linked mesh
    (whose region is set): the copy is a new object whose
    [deformAttachment] is the source's, and when the source's
    [deformAttachment] is the source itself, the copy's is the source, not
    the copy. *)
Theorem copies_share_deformAttachment :
  (forall (st : Store.t) (this d : loc) (s dd : Attachment.t),
     Store.attachments st !! this = Some s ->
     Store.attachments st !! d = Some dd ->
     exists st' d',
       VertexAttachment.copyTo this d st = (JS.Normal tt, st')
       /\ Store.attachments st' !! d = Some d'
       /\ Attachment.deformAttachment (Attachment.base d')
          = Attachment.deformAttachment (Attachment.base s))
  /\ (forall (st : Store.t) (this : loc) (s : Attachment.t) (color : Color.t),
        Store.attachments st !! this = Some s ->
        Attachment.ext s = Attachment.BoundingBox color ->
        exists copy st' c,
          BoundingBoxAttachment.copy this st = (JS.Normal copy, st')
          /\ Store.attachments st' !! copy = Some c
          /\ sameDeformAttachment this copy (Attachment.base s) (Attachment.base c))
  /\ (forall (st : Store.t) (this : loc) (s : Attachment.t)
             (endSlot : option SlotData.t) (color : Color.t),
        Store.attachments st !! this = Some s ->
        Attachment.ext s = Attachment.Clipping endSlot color ->
        exists copy st' c,
          ClippingAttachment.copy this st = (JS.Normal copy, st')
          /\ Store.attachments st' !! copy = Some c
          /\ sameDeformAttachment this copy (Attachment.base s) (Attachment.base c))
  /\ (forall (st : Store.t) (this : loc) (b : Attachment.vertex)
             (m : Attachment.mesh) (lv lru luv : list float) (ltr led : list Z),
        Store.attachments st !! this = Some (Attachment.mk b (Attachment.Mesh m)) ->
        Attachment.parentMesh m = None ->
        Store.floats st !! Attachment.vertices b = Some lv ->
        Store.floats st !! Attachment.regionUVs m = Some lru ->
        Store.floats st !! Attachment.uvs m = Some luv ->
        Store.ints st !! Attachment.triangles m = Some ltr ->
        Store.ints st !! Attachment.edges m = Some led ->
        (forall bl, Attachment.bones b = Some bl -> is_Some (Store.ints st !! bl)) ->
        exists copy st' c,
          MeshAttachment.copy this st = (JS.Normal copy, st')
          /\ Store.attachments st' !! copy = Some c
          /\ sameDeformAttachment this copy b (Attachment.base c))
  /\ (forall (st : Store.t) (this parent : loc) (b pb : Attachment.vertex)
             (m pm : Attachment.mesh) (region : TextureRegion.t)
             (regionValues : list float),
        Store.attachments st !! this = Some (Attachment.mk b (Attachment.Mesh m)) ->
        Attachment.parentMesh m = Some parent ->
        Attachment.region m = Some region ->
        Store.attachments st !! parent
          = Some (Attachment.mk pb (Attachment.Mesh pm)) ->
        Store.floats st !! Attachment.regionUVs pm = Some regionValues ->
        exists copy st' c,
          MeshAttachment.copy this st = (JS.Normal copy, st')
          /\ Store.attachments st' !! copy = Some c
          /\ sameDeformAttachment this copy b (Attachment.base c)).
Proof.
  split; [|split; [|split; [|split]]].
  - intros [f i a n] this d s dd Hs Hd.
    cbn [Store.attachments] in *.
    rewrite (copyTo_run f i a n this d s dd Hs Hd).
    eexists _, _. split; [reflexivity|].
    cbn [Store.attachments]. rewrite lookup_insert_eq.
    split; [reflexivity|]. destruct dd as [[]]. reflexivity.
  - intros [f i a n] this s color Hs He.
    cbn [Store.attachments] in *.
    destruct (BoundingBox_copy_run f i a n this s color Hs He)
      as (st' & c & Hrun & Ha' & _ & _ & Hdef).
    exists (fresh (dom a)), st', c. split; [exact Hrun|].
    rewrite Ha', lookup_insert_eq. split; [reflexivity|].
    apply sameDeformAttachment_intro; [|exact Hdef].
    apply not_eq_sym. eapply fresh_ne. exact Hs.
  - intros [f i a n] this s endSlot color Hs He.
    cbn [Store.attachments] in *.
    destruct (Clipping_copy_run f i a n this s endSlot color Hs He)
      as (st' & c & Hrun & Ha' & _ & _ & Hdef).
    exists (fresh (dom a)), st', c. split; [exact Hrun|].
    rewrite Ha', lookup_insert_eq. split; [reflexivity|].
    apply sameDeformAttachment_intro; [|exact Hdef].
    apply not_eq_sym. eapply fresh_ne. exact Hs.
  - intros st this b m lv lru luv ltr led Ht Hpar Hv Hru Huv Htr Hed Hb.
    destruct (Mesh_copy_spec st this b m lv lru luv ltr led
                Ht Hpar Hv Hru Huv Htr Hed Hb)
      as (st' & cb & cm & Hrun & Ha' & Hdeep).
    exists (fresh (dom (Store.attachments st))), st',
      (Attachment.mk cb (Attachment.Mesh cm)).
    split; [exact Hrun|].
    rewrite Ha', lookup_insert_eq. split; [reflexivity|].
    apply sameDeformAttachment_intro.
    + apply not_eq_sym. eapply fresh_ne. exact Ht.
    + cbn [Attachment.base]. apply Hdeep.
  - intros [f i a n] this parent b pb m pm region regionValues
      Ht Hpar Hreg Hp Hr.
    cbn [Store.floats Store.ints Store.attachments Store.nextID] in *.
    destruct (newLinkedMesh_run f i a n this parent b pb m pm region
                regionValues Ht Hreg ltac:(rewrite Hpar; reflexivity) Hp Hr)
      as (st' & uvs & edges & Hrun & Ha' & _).
    eexists (fresh (dom a)), st', _.
    split.
    { unfold MeshAttachment.copy, mbind, store_bind, Store.bind.
      rewrite (mesh_lookup (Store.mk f i a n) this _ m Ht eq_refl).
      rewrite Hpar. exact Hrun. }
    rewrite Ha', lookup_insert_eq. split; [reflexivity|].
    apply sameDeformAttachment_intro; [|reflexivity].
    apply not_eq_sym. eapply fresh_ne. exact Ht.
Qed.

(** ** Concrete runs *)

Definition exampleBone : Bone.t := Bone.mk 2 0 0 3 10 20.

Definition exampleSkeleton : Skeleton.t :=
  Skeleton.mk [Bone.mk 1 0 0 1 0 0; exampleBone] 5%float
    (fun index name => if String.eqb name "head" then Some 7%positive else None).

Definition exampleSlot : Slot.t :=
  Slot.mk
    (SlotData.mk 0 "slot" (Color.mk 1 1 1 1) None (Some "head"))
    exampleBone exampleSkeleton (Color.mk 0 0 0 0) None
    (Some 7%positive) 0%float 0 [].



(** A weighted attachment of two vertices: the first under bones 0 and 1,
    the second under bone 1 alone with weight 1; and the slot of a one-bone
    attachment on bone 1. *)
Lemma weighted_weight_one_matches_unweighted_witness :
  Slot.deform exampleSlot = []
  /\ 0 <= 1
  /\ Skeleton.bones (Slot.skeleton exampleSlot) !! Z.to_nat 1
     = Some (Slot.bone exampleSlot)
  /\ Z.of_nat (length [0.5; 0.5; 0.25; 1; 1; 0.75]%float)
     = 3 * influences [[0; 1]]
  /\ 0 < 2 /\ (1 <= 1)%nat /\ (length [[0; 1]] <= 1)%nat
  /\ exists outW outU,
       Skinning.computeWorldVertices 1
         (Some (encodeBones [[0; 1]] ++ [1; 1] ++ []))
         ([0.5; 0.5; 0.25; 1; 1; 0.75] ++ [3; 4; 1] ++ [])%float
         exampleSlot (2 * Z.of_nat (length [[0; 1]])) 2 ∅ 0 2
       = JS.Normal outW
       /\ Skinning.computeWorldVertices 1 None [3; 4]%float exampleSlot 0 2 ∅ 0 2
          = JS.Normal outU
       /\ outW !! 0 = Some 16%float /\ outU !! 0 = Some 16%float
       /\ outW !! 1 = Some 32%float /\ outU !! 1 = Some 32%float.
Proof.
  split; [reflexivity|]. split; [lia|]. split; [reflexivity|].
  split; [reflexivity|]. split; [lia|]. split; [lia|].
  split; [cbn [length]; lia|].
  destruct (weighted_weight_one_matches_unweighted 1 [[0; 1]] []
              [0.5; 0.5; 0.25; 1; 1; 0.75]%float [] 1 3%float 4%float
              exampleSlot exampleSlot 0 2 ∅
              eq_refl eq_refl ltac:(lia) eq_refl eq_refl ltac:(lia)
              ltac:(lia) ltac:(cbn [length]; lia))
    as (outW & outU & wx & wy & ux & uy & HW & HU & Hwx & Hwy & Hux & Huy
        & Ex & Ey & _).
  exists outW, outU. split; [exact HW|]. split; [exact HU|].
  assert (Hx : ux = 16%float).
  { vm_compute in HU. injection HU as <-.
    vm_compute in Hux. injection Hux as <-. reflexivity. }
  assert (Hy : uy = 32%float).
  { vm_compute in HU. injection HU as <-.
    vm_compute in Huy. injection Huy as <-. reflexivity. }
  change (0 + 1) with 1 in Hwy, Huy.
  rewrite Hwx, Hwy, Hux, Huy, Ex, Ey, Hx, Hy.
  repeat split; reflexivity.
Defined.


(** Both cases of [setAttachment] on a slot with a deform. *)
Lemma setAttachment_identity_witness :
  let slot := Slot.mk (Slot.data exampleSlot) (Slot.bone exampleSlot)
                (Slot.skeleton exampleSlot) (Slot.color exampleSlot) None
                (Some 7%positive) 0%float 0 [1%float; 2%float] in
  Slot.setAttachment slot (Some 7%positive) = slot
  /\ Slot.deform (Slot.setAttachment slot (Some 8%positive)) = []
  /\ Slot.attachmentTime (Slot.setAttachment slot None) = 5%float.
Proof.
  intros slot.
  split; [apply (proj1 (setAttachment_identity slot (Some 7%positive))); reflexivity|].
  split.
  - apply (proj2 (setAttachment_identity slot (Some 8%positive))). discriminate.
  - apply (proj2 (setAttachment_identity slot None)). discriminate.
Defined.

(** A quad mesh on a region that is packed rotated by 90 degrees in a
    256 x 128 page. *)
Definition rotatedRegion : TextureRegion.t :=
  TextureRegion.mk 0.5 0.25 0.75 0.5 64 32 2 4 80 40
    (Some (TextureRegion.mkAtlas 90 256 128)).

Definition quadMesh : Attachment.mesh :=
  Attachment.mkMesh (Some rotatedRegion) "quad" 2%positive 3%positive
    1%positive (Color.mk 1 1 1 1) 0 0 0 2%positive None (Color.mk 0 0 0 0).

Definition quadAttachment : Attachment.t :=
  Attachment.mk (Attachment.mkVertex "quad" 0 None 1%positive 0 (Some 1%positive))
    (Attachment.Mesh quadMesh).

Definition quadStore : Store.t :=
  Store.mk
    (<[3%positive := []]>
       (<[2%positive := [0; 0; 1; 0; 1; 1; 0; 1]%float]>
          (<[1%positive := []]> ∅)))
    (<[2%positive := []]> (<[1%positive := []]> ∅))
    (<[1%positive := quadAttachment]> ∅)
    1.

(** [updateUVs] on the quad: the first vertex, [(0, 0)] in the region, lands
    at [(0.484375, 0.765625)] in the page. *)
Lemma updateUVs_atlas_region_witness :
  Store.attachments quadStore !! 1%positive = Some quadAttachment
  /\ Attachment.ext quadAttachment = Attachment.Mesh quadMesh
  /\ Attachment.region quadMesh = Some rotatedRegion
  /\ TextureRegion.atlas rotatedRegion = Some (TextureRegion.mkAtlas 90 256 128)
  /\ Store.floats quadStore !! Attachment.regionUVs quadMesh
     = Some [0; 0; 1; 0; 1; 1; 0; 1]%float
  /\ Store.floats quadStore !! Attachment.uvs quadMesh = Some []
  /\ Attachment.uvs quadMesh <> Attachment.regionUVs quadMesh
  /\ exists st' m',
       MeshAttachment.updateUVs 1%positive quadStore = (JS.Normal tt, st')
       /\ Store.attachments st' !! 1%positive
          = Some (Attachment.mk (Attachment.base quadAttachment) (Attachment.Mesh m'))
       /\ Store.load st' (Attachment.uvs m') 0 = 0.484375%float
       /\ Store.load st' (Attachment.uvs m') 1 = 0.765625%float.
Proof.
  split; [reflexivity|]. split; [reflexivity|]. split; [reflexivity|].
  split; [reflexivity|]. split; [reflexivity|]. split; [reflexivity|].
  split; [discriminate|].
  destruct (updateUVs_atlas_region quadStore 1%positive quadAttachment quadMesh
              rotatedRegion (TextureRegion.mkAtlas 90 256 128)
              [0; 0; 1; 0; 1; 1; 0; 1]%float []
              eq_refl eq_refl eq_refl eq_refl eq_refl eq_refl
              ltac:(discriminate))
    as (st' & m' & Hrun & Hobj & _ & _ & Hvals).
  exists st', m'. split; [exact Hrun|]. split; [exact Hobj|].
  destruct (Hvals 0 ltac:(lia) ltac:(cbn [length]; lia)) as [H90 _].
  destruct (H90 eq_refl) as [Hu Hv].
  split; [exact Hu|exact Hv].
Defined.
